(** * RandomUtils: the interpolable look-up table

    A shallow embedding of [Cpp/InterpolableLUT.cpp] (class
    [InterpolableLUT]) and of its earlier variant (class [InterpolateLUT]),
    followed by the properties of the two-pass interpolation [find].

    Arithmetic.  The C++ code computes on [double].  The embedding is
    written once over an interface [Number] holding the six operations
    the code uses ([+ - * /], [<=] and [>]) and is instantiated twice:
    - [binary64]: Rocq's primitive IEEE 754 binary64 floats, which is what
      the program runs on;
    - [exact]: the rationals [Q], the arithmetic without rounding.
    The properties of [find] are stated for [binary64], or for every
    instance satisfying [OrderLaws], which [binary64] does.  Where a
    property needs the value of an operation, it is derived from the
    specification of binary64 ([SpecFloat]): the operations that are
    exact ([x - x], a product or quotient of zero, a sum with zero) and
    the sign of a difference.  The instance [exact] serves for what holds
    without rounding, for the search over values whose order is total,
    and for runs on small integers.

    Undefined behaviour.  [std::vector::operator[]] outside the bounds of
    the vector is undefined; the embedding makes it an explicit outcome, so
    that a theorem [find t x y = Ok r] also says that every read of the run
    was inside its vector.

    Integers.  Lengths and indexes are C++ [int]; they are embedded in [Z].
    The only arithmetic on them is [list_len - 1] and [i + 1] with
    [0 <= i < list_len - 1]: it stays in range except for [list_len - 1]
    at [list_len = INT_MIN], which no vector length reaches; a statement
    about a negative length says so when it leaves that value out.

    Output.  [operator<<] and [verifyTables] are embedded with the stream
    as the list of the characters written on it; the decimal text of a
    [double] is the C++ library's and is a parameter of the embedding.
    The two drivers only call [find] and print; of them, the table that
    [example()] builds is embedded. *)

From Equations Require Import Equations.
From Stdlib Require Import Ascii.
From Stdlib Require Import ZArith QArith Lqa Floats List Bool Lia Sorted.
Import ListNotations.

Set Warnings "-inexact-float".

Local Open Scope Z_scope.

(** ** Outcomes of a C++ evaluation *)

Inductive exn : Type :=
| out_of_range
| length_error.

Inductive outcome (A : Type) : Type :=
| Ok (a : A)
| Throw (e : exn)
| Undefined.

Arguments Ok {A} a.
Arguments Throw {A} e.
Arguments Undefined {A}.

Definition bind {A B : Type} (m : outcome A) (k : A -> outcome B) : outcome B :=
  match m with
  | Ok a => k a
  | Throw e => Throw e
  | Undefined => Undefined
  end.

Declare Scope outcome_scope.
Delimit Scope outcome_scope with outcome.
Notation "x <- m ;; k" := (bind m (fun x => k))
  (at level 61, m at next level, right associativity) : outcome_scope.
Notation "' pat <- m ;; k" := (bind m (fun x => match x with pat => k end))
  (at level 61, pat pattern, m at next level, right associativity) : outcome_scope.
Local Open Scope outcome_scope.

(** ** The arithmetic interface *)

Class Number (D : Type) : Type := {
  nzero : D;
  nadd : D -> D -> D;
  nsub : D -> D -> D;
  nmul : D -> D -> D;
  ndiv : D -> D -> D;
  nle : D -> D -> bool;
  nlt : D -> D -> bool
}.

Declare Scope num_scope.
Delimit Scope num_scope with num.
Notation "a + b" := (nadd a b) : num_scope.
Notation "a - b" := (nsub a b) : num_scope.
Notation "a * b" := (nmul a b) : num_scope.
Notation "a / b" := (ndiv a b) : num_scope.
Notation "a <=? b" := (nle a b) : num_scope.
Notation "a <? b" := (nlt a b) : num_scope.
Notation "a >? b" := (nlt b a) : num_scope.

(** IEEE 754 binary64, the [double] of the program. *)
#[export] Instance binary64 : Number float := {|
  nzero := 0%float;
  nadd := PrimFloat.add;
  nsub := PrimFloat.sub;
  nmul := PrimFloat.mul;
  ndiv := PrimFloat.div;
  nle := PrimFloat.leb;
  nlt := PrimFloat.ltb
|}.

Definition Qlt_bool (a b : Q) : bool :=
  (Qnum a * QDen b <? Qnum b * QDen a)%Z.

(** Arithmetic without rounding. *)
#[export] Instance exact : Number Q := {|
  nzero := 0%Q;
  nadd := Qplus;
  nsub := Qminus;
  nmul := Qmult;
  ndiv := Qdiv;
  nle := Qle_bool;
  nlt := Qlt_bool
|}.

(** ** [std::vector] *)

(** [v[i]] as a read: undefined outside [0 .. size-1]. *)
Definition vec_at {A : Type} (v : list A) (i : Z) : outcome A :=
  if i <? 0 then Undefined
  else match nth_error v (Z.to_nat i) with
       | Some a => Ok a
       | None => Undefined
       end.

Fixpoint list_set {A : Type} (v : list A) (n : nat) (a : A) : list A :=
  match v, n with
  | [], _ => []
  | _ :: v', O => a :: v'
  | b :: v', S n' => b :: list_set v' n' a
  end.

(** [v[i] = a]: undefined outside [0 .. size-1]. *)
Definition vec_set {A : Type} (v : list A) (i : Z) (a : A) : outcome (list A) :=
  if (i <? 0) || (Z.of_nat (length v) <=? i) then Undefined
  else Ok (list_set v (Z.to_nat i) a).

(** [std::vector<double> v(n)] with [n] an [int]: a negative [n] converts
    to a [size_type] above [max_size()] and the constructor throws
    [std::length_error]; otherwise [n] zeros. *)
Definition vec_make {D : Type} {N : Number D} (n : Z) : outcome (list D) :=
  if n <? 0 then Throw length_error
  else Ok (repeat nzero (Z.to_nat n)).

(** [(size_t) n] for an [int n] on a 64-bit target. *)
Definition to_size_t (n : Z) : Z := n mod 2 ^ 64.

(** ** class InterpolableLUT (Cpp/InterpolableLUT.cpp) *)

Module InterpolableLUT.
Section Class.
Context {D : Type} {N : Number D}.

Record t : Type := make {
  table : list (list D);
  x_ref : list D;
  y_ref : list D;
  x_len : Z;
  y_len : Z
}.

Definition linear_interpolate (x0 y0 x1 y1 x : D) : D :=
  (y0 + (y1 - y0) * (x - x0) / (x1 - x0))%num.

(** The loop of [find_nearest_indexes], entered at index [i] with [n]
    iterations left; [lower_result] and [upper_result] are the current
    contents of the two out-parameters.  [&&] evaluates [list[i+1]] only
    when [list[i] <= search_val] holds. *)
Fixpoint scan (list : list D) (search_val : D) (n : nat) (i : Z)
    (lower_result upper_result : Z) : outcome (bool * Z * Z) :=
  match n with
  | O => Ok (false, lower_result, upper_result)
  | S n' =>
      a <- vec_at list i ;;
      if (a <=? search_val)%num then
        b <- vec_at list (i + 1) ;;
        if (b >? search_val)%num then Ok (true, i, i + 1)
        else scan list search_val n' (i + 1) lower_result upper_result
      else scan list search_val n' (i + 1) lower_result upper_result
  end.

(** Returns [ret] together with the final contents of [*lower_result] and
    [*upper_result].  The loop [for (i = 0; i < list_len-1; i++)] makes
    [list_len - 1] iterations, none when that is not positive.  The bound
    is computed in [Z]: it is the [int] of the program for every
    [list_len] above [INT_MIN]. *)
Definition find_nearest_indexes (list : list D) (list_len : Z) (search_val : D)
    (lower_result upper_result : Z) : outcome (bool * Z * Z) :=
  scan list search_val (Z.to_nat (list_len - 1)) 0 lower_result upper_result.

(** The loop that fills [interpolated_y_values_at_x], entered at column
    [i] with [n] iterations left. *)
Fixpoint fill (s : t) (y_lower_idx y_upper_idx : Z) (y_input : D)
    (n : nat) (i : Z) (row : list D) : outcome (list D) :=
  match n with
  | O => Ok row
  | S n' =>
      x0 <- vec_at (y_ref s) y_lower_idx ;;
      r0 <- vec_at (table s) y_lower_idx ;;
      y0 <- vec_at r0 i ;;
      x1 <- vec_at (y_ref s) y_upper_idx ;;
      r1 <- vec_at (table s) y_upper_idx ;;
      y1 <- vec_at r1 i ;;
      row' <- vec_set row i (linear_interpolate x0 y0 x1 y1 y_input) ;;
      fill s y_lower_idx y_upper_idx y_input n' (i + 1) row'
  end.

(** The synthetic row: [interpolated_y_values_at_x] after its loop. *)
Definition interpolated_y_values_at_x (s : t) (y_lower_idx y_upper_idx : Z)
    (y_input : D) : outcome (list D) :=
  row <- vec_make (x_len s) ;;
  fill s y_lower_idx y_upper_idx y_input (Z.to_nat (x_len s)) 0 row.

Definition find (s : t) (x_input y_input : D) : outcome D :=
  let x_lower_idx := 0 in
  let x_upper_idx := 0 in
  let y_lower_idx := 0 in
  let y_upper_idx := 0 in
  let result := x_input in
  '(found_y, y_lower_idx, y_upper_idx) <-
     find_nearest_indexes (y_ref s) (y_len s) y_input y_lower_idx y_upper_idx ;;
  if found_y then
    row <- interpolated_y_values_at_x s y_lower_idx y_upper_idx y_input ;;
    '(found_x, x_lower_idx, x_upper_idx) <-
       find_nearest_indexes row (x_len s) x_input x_lower_idx x_upper_idx ;;
    if found_x then
      x0 <- vec_at row x_lower_idx ;;
      y0 <- vec_at (x_ref s) x_lower_idx ;;
      x1 <- vec_at row x_upper_idx ;;
      y1 <- vec_at (x_ref s) x_upper_idx ;;
      Ok (linear_interpolate x0 y0 x1 y1 x_input)
    else Ok result
  else Ok result.

Definition getYRef (s : t) : list D := y_ref s.

(** [operator[](size_t row)]: the comparison [row >= y_len] converts the
    [int] to [size_t]. *)
Definition operator_subscript (s : t) (row : Z) : outcome (list D) :=
  if to_size_t (y_len s) <=? row then Throw out_of_range
  else vec_at (table s) row.

(** *** Not members of the class *)

(** [find] with every invocation of [linear_interpolate] recorded: the
    log holds, in the order of the calls, the endpoints [(x0, x1)] whose
    difference is the divisor of that call. *)
Fixpoint fill_log (s : t) (y_lower_idx y_upper_idx : Z) (y_input : D)
    (n : nat) (i : Z) (row : list D) (log : list (D * D))
    : outcome (list D * list (D * D)) :=
  match n with
  | O => Ok (row, log)
  | S n' =>
      x0 <- vec_at (y_ref s) y_lower_idx ;;
      r0 <- vec_at (table s) y_lower_idx ;;
      y0 <- vec_at r0 i ;;
      x1 <- vec_at (y_ref s) y_upper_idx ;;
      r1 <- vec_at (table s) y_upper_idx ;;
      y1 <- vec_at r1 i ;;
      row' <- vec_set row i (linear_interpolate x0 y0 x1 y1 y_input) ;;
      fill_log s y_lower_idx y_upper_idx y_input n' (i + 1) row'
        (log ++ [(x0, x1)])
  end.

Definition find_log (s : t) (x_input y_input : D) : outcome (D * list (D * D)) :=
  let result := x_input in
  '(found_y, y_lower_idx, y_upper_idx) <-
     find_nearest_indexes (y_ref s) (y_len s) y_input 0 0 ;;
  if found_y then
    row0 <- vec_make (x_len s) ;;
    '(row, log) <-
       fill_log s y_lower_idx y_upper_idx y_input (Z.to_nat (x_len s)) 0 row0 [] ;;
    '(found_x, x_lower_idx, x_upper_idx) <-
       find_nearest_indexes row (x_len s) x_input 0 0 ;;
    if found_x then
      x0 <- vec_at row x_lower_idx ;;
      y0 <- vec_at (x_ref s) x_lower_idx ;;
      x1 <- vec_at row x_upper_idx ;;
      y1 <- vec_at (x_ref s) x_upper_idx ;;
      Ok (linear_interpolate x0 y0 x1 y1 x_input, log ++ [(x0, x1)])
    else Ok (result, log)
  else Ok (result, []).

(** The constraints the constructor leaves to its caller: the grid has
    [y_len] rows of [x_len] columns and the reference sequences have the
    lengths given. *)
Record well_formed (s : t) : Prop := {
  wf_rows : Z.of_nat (length (table s)) = y_len s;
  wf_cols : Forall (fun r => Z.of_nat (length r) = x_len s) (table s);
  wf_x_ref : Z.of_nat (length (x_ref s)) = x_len s;
  wf_y_ref : Z.of_nat (length (y_ref s)) = y_len s
}.

End Class.
Arguments t D : clear implicits.
End InterpolableLUT.

(** The table of [example()]. *)
Definition temp_points : list float :=
  [0; 5; 10; 15; 20; 25; 30; 35; 40; 45; 50; 55]%float.

Definition ph_values_at_25 : list float :=
  [1.68; 4.01; 6.86; 7.00; 9.18; 10.01; 12.46]%float.

Definition ph_values : list (list float) :=
  [ [1.67; 4.01; 6.98; 7.12; 9.46; 10.32; 13.47];
    [1.67; 4.01; 6.95; 7.09; 9.39; 10.25; 13.25];
    [1.67; 4.00; 6.92; 7.06; 9.32; 10.18; 13.03];
    [1.67; 4.00; 6.90; 7.04; 9.27; 10.12; 12.83];
    [1.68; 4.00; 6.88; 7.02; 9.22; 10.06; 12.64];
    [1.68; 4.01; 6.86; 7.00; 9.18; 10.01; 12.46];
    [1.69; 4.01; 6.85; 6.98; 9.14;  9.97; 12.29];
    [1.69; 4.02; 6.84; 6.98; 9.10;  9.93; 12.14];
    [1.70; 4.03; 6.84; 6.97; 9.07;  9.89; 11.99];
    [1.70; 4.04; 6.83; 6.97; 9.04;  9.86; 11.86];
    [1.71; 4.06; 6.83; 6.97; 9.01;  9.83; 11.73];
    [1.72; 4.08; 6.83; 6.97; 8.99;  9.81; 11.61] ]%float.

Definition NUM_TEMP_POINTS : Z := 12.
Definition NUM_PH_POINTS : Z := 7.

Definition lutPh : InterpolableLUT.t float :=
  InterpolableLUT.make ph_values ph_values_at_25 temp_points
    NUM_PH_POINTS NUM_TEMP_POINTS.

(** ** class InterpolateLUT (the earlier variant) *)

(** A C++ [int] result: signed overflow is undefined. *)
Definition int_ok (z : Z) : outcome Z :=
  if (- 2 ^ 31 <=? z) && (z <? 2 ^ 31) then Ok z else Undefined.

Module InterpolateLUT.
Section Class.
Context {D : Type} {N : Number D}.

Record t : Type := make {
  table : list (list D);
  x_ref : list D;
  y_ref : list D;
  x_len : Z;
  y_len : Z
}.

Fixpoint scan (list : list D) (search_val : D) (n : nat) (i : Z)
    (lower_result upper_result : Z) : outcome (bool * Z * Z) :=
  match n with
  | O => Ok (false, lower_result, upper_result)
  | S n' =>
      a <- vec_at list i ;;
      if (a <=? search_val)%num then
        b <- vec_at list (i + 1) ;;
        if (b >? search_val)%num then Ok (true, i, i + 1)
        else scan list search_val n' (i + 1) lower_result upper_result
      else scan list search_val n' (i + 1) lower_result upper_result
  end.

Definition find_nearest_indexes (list : list D) (list_len : Z) (search_val : D)
    (lower_result upper_result : Z) : outcome (bool * Z * Z) :=
  scan list search_val (Z.to_nat (list_len - 1)) 0 lower_result upper_result.

(** The [int] overload: integer arithmetic, division truncating towards
    zero and undefined for a zero divisor. *)
Definition linear_interpolate_int (x0 y0 x1 y1 x : Z) : outcome Z :=
  a <- int_ok (y1 - y0) ;;
  b <- int_ok (x - x0) ;;
  p <- int_ok (a * b) ;;
  d <- int_ok (x1 - x0) ;;
  if d =? 0 then Undefined
  else q <- int_ok (Z.quot p d) ;; int_ok (y0 + q).

(** The [double] overload. *)
Definition linear_interpolate (x0 y0 x1 y1 x : D) : D :=
  (y0 + (y1 - y0) * (x - x0) / (x1 - x0))%num.

(** Both calls in [find] pass five [double] arguments, so overload
    resolution selects the [double] version (an exact match). *)
Fixpoint fill (s : t) (y_lower_idx y_upper_idx : Z) (y_input : D)
    (n : nat) (i : Z) (row : list D) : outcome (list D) :=
  match n with
  | O => Ok row
  | S n' =>
      x0 <- vec_at (y_ref s) y_lower_idx ;;
      r0 <- vec_at (table s) y_lower_idx ;;
      y0 <- vec_at r0 i ;;
      x1 <- vec_at (y_ref s) y_upper_idx ;;
      r1 <- vec_at (table s) y_upper_idx ;;
      y1 <- vec_at r1 i ;;
      row' <- vec_set row i (linear_interpolate x0 y0 x1 y1 y_input) ;;
      fill s y_lower_idx y_upper_idx y_input n' (i + 1) row'
  end.

Definition interpolated_y_values_at_x (s : t) (y_lower_idx y_upper_idx : Z)
    (y_input : D) : outcome (list D) :=
  row <- vec_make (x_len s) ;;
  fill s y_lower_idx y_upper_idx y_input (Z.to_nat (x_len s)) 0 row.

Definition find (s : t) (x_input y_input : D) : outcome D :=
  let x_lower_idx := 0 in
  let x_upper_idx := 0 in
  let y_lower_idx := 0 in
  let y_upper_idx := 0 in
  let result := x_input in
  '(found_y, y_lower_idx, y_upper_idx) <-
     find_nearest_indexes (y_ref s) (y_len s) y_input y_lower_idx y_upper_idx ;;
  if found_y then
    row <- interpolated_y_values_at_x s y_lower_idx y_upper_idx y_input ;;
    '(found_x, x_lower_idx, x_upper_idx) <-
       find_nearest_indexes row (x_len s) x_input x_lower_idx x_upper_idx ;;
    if found_x then
      x0 <- vec_at row x_lower_idx ;;
      y0 <- vec_at (x_ref s) x_lower_idx ;;
      x1 <- vec_at row x_upper_idx ;;
      y1 <- vec_at (x_ref s) x_upper_idx ;;
      Ok (linear_interpolate x0 y0 x1 y1 x_input)
    else Ok result
  else Ok result.

End Class.
Arguments t D : clear implicits.
End InterpolateLUT.

(** ** Laws of the order *)

(** What the proofs use of [<=] and [<].  Reflexivity and totality are
    left out on purpose: they fail for a NaN. *)
Class OrderLaws (D : Type) {N : Number D} : Prop := {
  nle_trans : forall a b c : D,
    (a <=? b)%num = true -> (b <=? c)%num = true -> (a <=? c)%num = true;
  nle_nlt_trans : forall a b c : D,
    (a <=? b)%num = true -> (b <? c)%num = true -> (a <? c)%num = true;
  nlt_nle_trans : forall a b c : D,
    (a <? b)%num = true -> (b <=? c)%num = true -> (a <? c)%num = true;
  nlt_not_nle : forall a b : D,
    (a <? b)%num = true -> (b <=? a)%num = false;
  nlt_nle : forall a b : D,
    (a <? b)%num = true -> (a <=? b)%num = true
}.

(** A total preorder key for the binary64 values other than NaN:
    [SFcompare] is the lexicographic comparison of the keys. *)
Definition SFkey (f : spec_float) : option (Z * Z * Z) :=
  match f with
  | S754_nan => None
  | S754_infinity true => Some (-2, 0, 0)
  | S754_infinity false => Some (2, 0, 0)
  | S754_zero _ => Some (0, 0, 0)
  | S754_finite true m e => Some (-1, - e, - Zpos m)
  | S754_finite false m e => Some (1, e, Zpos m)
  end.

Definition key_lt (a b : Z * Z * Z) : Prop :=
  let '(a1, a2, a3) := a in
  let '(b1, b2, b3) := b in
  a1 < b1 \/ (a1 = b1 /\ (a2 < b2 \/ (a2 = b2 /\ a3 < b3))).

Definition key_le (a b : Z * Z * Z) : Prop :=
  let '(a1, a2, a3) := a in
  let '(b1, b2, b3) := b in
  a1 < b1 \/ (a1 = b1 /\ (a2 < b2 \/ (a2 = b2 /\ a3 <= b3))).

Definition on_keys (R : Z * Z * Z -> Z * Z * Z -> Prop) (f g : spec_float) : Prop :=
  match SFkey f, SFkey g with
  | Some a, Some b => R a b
  | _, _ => False
  end.

(** Classes of binary64 values, read on their specification. *)

(** Neither a NaN nor an infinity. *)
Definition SFfinite (f : spec_float) : bool :=
  match f with
  | S754_zero _ | S754_finite _ _ _ => true
  | _ => false
  end.

(** A zero of either sign. *)
Definition SFzero (f : spec_float) : bool :=
  match f with
  | S754_zero _ => true
  | _ => false
  end.

(** Of sign [s] and not a zero: a finite magnitude or an infinity. *)
Definition SFnonzero (s : bool) (f : spec_float) : Prop :=
  match f with
  | S754_finite s' _ _ | S754_infinity s' => s' = s
  | _ => False
  end.

(** ** Vocabulary of the properties *)

Section Vocabulary.
Context {D : Type} {N : Number D}.

(** [lo, lo+1] is a bracket of [v]: both elements exist,
    [list[lo] <= v] and [list[lo+1] > v]. *)
Definition is_bracket (list : list D) (v : D) (lo : Z) : bool :=
  match vec_at list lo, vec_at list (lo + 1) with
  | Ok a, Ok b => (a <=? v)%num && (b >? v)%num
  | _, _ => false
  end.

(** Sorted ascending: each element is [<=] the next one. *)
Fixpoint ascending (l : list D) : bool :=
  match l with
  | a :: (b :: _) as l' => (a <=? b)%num && ascending l'
  | _ => true
  end.

(** Strictly increasing: each element is [<] the next one. *)
Fixpoint increasing (l : list D) : bool :=
  match l with
  | a :: (b :: _) as l' => (a <? b)%num && increasing l'
  | _ => true
  end.

(** [v] is inside the range covered by [l]: [l[0] <= v < l[last]]. *)
Definition in_range (l : list D) (v : D) : bool :=
  match vec_at l 0, vec_at l (Z.of_nat (length l) - 1) with
  | Ok a, Ok b => (a <=? v)%num && (v <? b)%num
  | _, _ => false
  end.

(** The synthetic row that [find] computes at [y_input], when the
    y-bracket search succeeds. *)
Definition synthetic_row (s : InterpolableLUT.t D) (y_input : D)
    : outcome (option (list D)) :=
  '(found_y, y_lower_idx, y_upper_idx) <-
     InterpolableLUT.find_nearest_indexes
       (InterpolableLUT.y_ref s) (InterpolableLUT.y_len s) y_input 0 0 ;;
  if found_y then
    row <- InterpolableLUT.interpolated_y_values_at_x
             s y_lower_idx y_upper_idx y_input ;;
    Ok (Some row)
  else Ok None.

(** The second pass of [find]: the x-bracket search over a row and the
    final interpolation against the X reference. *)
Definition find_in_row (s : InterpolableLUT.t D) (row : list D) (x_input : D)
    : outcome D :=
  '(found_x, x_lower_idx, x_upper_idx) <-
     InterpolableLUT.find_nearest_indexes row (InterpolableLUT.x_len s)
       x_input 0 0 ;;
  if found_x then
    x0 <- vec_at row x_lower_idx ;;
    y0 <- vec_at (InterpolableLUT.x_ref s) x_lower_idx ;;
    x1 <- vec_at row x_upper_idx ;;
    y1 <- vec_at (InterpolableLUT.x_ref s) x_upper_idx ;;
    Ok (InterpolableLUT.linear_interpolate x0 y0 x1 y1 x_input)
  else Ok x_input.

(** [x_input] is inside the range of the synthetic row at [y_input]. *)
Definition in_row_range (s : InterpolableLUT.t D) (y_input x_input : D) : bool :=
  match synthetic_row s y_input with
  | Ok (Some row) => in_range row x_input
  | _ => false
  end.

End Vocabulary.

(** Two small tables in exact arithmetic, used as concrete inputs.
    [table_2x2] has the grid rows [1 2] and [3 4] at [y = 0] and [y = 1],
    with the X reference [10 20]; [table_low_ref] has twice the grid row
    [10 20], with the X reference [0 1] below the grid values. *)
Definition table_2x2 : InterpolableLUT.t Q :=
  InterpolableLUT.make [[1; 2]; [3; 4]]%Q [10; 20]%Q [0; 1]%Q 2 2.


(** The differences [r1[i] - r0[i]] of two rows are finite: none
    overflows, and no value involved is an infinity or a NaN. *)
Definition finite_differences (r0 r1 : list float) : bool :=
  forallb (fun p => is_finite (snd p - fst p)%float) (combine r0 r1).

(** Tables in binary64, used as concrete inputs.  [table_2x2_binary64] is
    [table_2x2]; [table_one_column] has the grid column [3.9 0] under the
    Y reference [2.1 6.8]; [table_rounding] has two grid rows whose
    differences are all [1]; [table_negative_x_len] is [table_2x2] given
    with [x_len = -1]; the first column of [table_overflow] has a
    difference above the largest finite value. *)
Definition table_2x2_binary64 : InterpolableLUT.t float :=
  InterpolableLUT.make [[1; 2]; [3; 4]]%float [10; 20]%float [0; 1]%float 2 2.

Definition table_one_column : InterpolableLUT.t float :=
  InterpolableLUT.make [[3.9]; [0]]%float [1]%float [2.1; 6.8]%float 1 2.

Definition table_rounding : InterpolableLUT.t float :=
  InterpolableLUT.make [[0.1; 0.9; 1.9]; [1.1; 1.9; 2.9]]%float
    [0.7; 3.4; 4.4]%float [0; 1]%float 3 2.

Definition table_negative_x_len : InterpolableLUT.t float :=
  InterpolableLUT.make [[1; 2]; [3; 4]]%float [10; 20]%float [0; 1]%float (-1) 2.

Definition table_overflow : InterpolableLUT.t float :=
  InterpolableLUT.make [[-1e308; 0]; [1e308; 1.5e308]]%float [10; 20]%float
    [0; 1]%float 2 2.

(** ** Output *)

(** The characters written on a stream, oldest first. *)
Definition text : Type := list ascii.

Definition tab : text := [ascii_of_nat 9].
Definition newline : text := [ascii_of_nat 10].
Definition colon : text := [":"%char].

Definition inspect {A : Type} (a : A) : {b : A | a = b} := exist _ a eq_refl.

Section Output.
Context {D : Type} {N : Number D}.

(** [put_fixed2 v] stands for the characters that
    [os << std::fixed << std::setprecision(2) << v] writes on a stream
    that has no field width set, and [printf_2f v] for those that
    [printf("%.2f", v)] writes: both conversions belong to the C++
    library. *)
Variable put_fixed2 : D -> text.
Variable printf_2f : D -> text.

(** The bound [table[i].size()] of the inner loop of [operator<<], when
    [table[i]] returns. *)
Definition row_size (table : InterpolableLUT.t D) (i : Z) : Z :=
  match InterpolableLUT.operator_subscript table i with
  | Ok r => Z.of_nat (length r)
  | _ => 0
  end.

(** The inner loop of [operator<<], entered at column [j].  Its test
    [j < table[i].size()] and its body [table[i][j]] each call
    [operator[]], which throws when [i] is not below [y_len]. *)
Equations? put_columns (table : InterpolableLUT.t D) (i j : Z) (os : text)
    : text * outcome unit
    by wf (Z.to_nat (row_size table i - j)) lt :=
  put_columns table i j os
    with inspect (InterpolableLUT.operator_subscript table i) := {
    | exist _ (Ok r) Hr with inspect (j <? Z.of_nat (length r)) := {
        | exist _ true Hj :=
            match InterpolableLUT.operator_subscript table i with
            | Ok r' =>
                match vec_at r' j with
                | Ok v => put_columns table i (j + 1) (os ++ put_fixed2 v ++ tab)
                | Throw e => (os, Throw e)
                | Undefined => (os, Undefined)
                end
            | Throw e => (os, Throw e)
            | Undefined => (os, Undefined)
            end
        | exist _ false _ := (os, Ok tt) };
    | exist _ (Throw e) _ := (os, Throw e);
    | exist _ Undefined _ := (os, Undefined) }.
Proof.
  unfold row_size. rewrite Hr. apply Z.ltb_lt in Hj. lia.
Qed.

(** The outer loop of [operator<<] over the copy [y_ref] of the Y
    reference, entered at row [i] with [n] iterations left. *)
Fixpoint put_rows (table : InterpolableLUT.t D) (y_ref : list D)
    (n : nat) (i : Z) (os : text) : text * outcome unit :=
  match n with
  | O => (os, Ok tt)
  | S n' =>
      match vec_at y_ref i with
      | Ok y =>
          match put_columns table i 0 (os ++ put_fixed2 y ++ tab) with
          | (os', Ok _) => put_rows table y_ref n' (i + 1) (os' ++ newline)
          | (os', Throw e) => (os', Throw e)
          | (os', Undefined) => (os', Undefined)
          end
      | Throw e => (os, Throw e)
      | Undefined => (os, Undefined)
      end
  end.

(** [operator<<(std::ostream&, const InterpolableLUT&)]: the text on the
    stream afterwards, and whether the call returned. *)
Definition operator_insert (os : text) (table : InterpolableLUT.t D)
    : text * outcome unit :=
  let y_ref := InterpolableLUT.getYRef table in
  put_rows table y_ref (length y_ref) 0 os.

(** The inner loop of [InterpolateLUT::verifyTables], entered at column
    [j] with [n] iterations left. *)
Fixpoint print_columns (s : InterpolateLUT.t D) (i : Z) (n : nat) (j : Z)
    (out : text) : text * outcome unit :=
  match n with
  | O => (out, Ok tt)
  | S n' =>
      match (r <- vec_at (InterpolateLUT.table s) i ;; vec_at r j) with
      | Ok v => print_columns s i n' (j + 1) (out ++ printf_2f v ++ tab)
      | Throw e => (out, Throw e)
      | Undefined => (out, Undefined)
      end
  end.

(** Its outer loop, entered at row [i] with [n] iterations left. *)
Fixpoint print_rows (s : InterpolateLUT.t D) (n : nat) (i : Z) (out : text)
    : text * outcome unit :=
  match n with
  | O => (out, Ok tt)
  | S n' =>
      match vec_at (InterpolateLUT.y_ref s) i with
      | Ok y =>
          match print_columns s i (Z.to_nat (InterpolateLUT.x_len s)) 0
                  (out ++ printf_2f y ++ colon ++ tab) with
          | (out', Ok _) => print_rows s n' (i + 1) (out' ++ newline)
          | (out', Throw e) => (out', Throw e)
          | (out', Undefined) => (out', Undefined)
          end
      | Throw e => (out, Throw e)
      | Undefined => (out, Undefined)
      end
  end.

(** [InterpolateLUT::verifyTables], writing on the standard output. *)
Definition verifyTables (s : InterpolateLUT.t D) (out : text)
    : text * outcome unit :=
  print_rows s (Z.to_nat (InterpolateLUT.y_len s)) 0 out.

(** One line of a printed table: the Y value, a separator, each value of
    the row followed by a tab, and a newline. *)
Definition render_row (fmt : D -> text) (sep : text) (y : D) (row : list D)
    : text :=
  fmt y ++ sep ++ flat_map (fun v => fmt v ++ tab) row ++ newline.

(** The lines of the Y values paired with the rows, as far as both go. *)
Definition render (fmt : D -> text) (sep : text) (ys : list D)
    (rows : list (list D)) : text :=
  flat_map (fun p => render_row fmt sep (fst p) (snd p)) (combine ys rows).

End Output.

(** ** The two instances satisfy the laws *)

Lemma SFltb_key (f g : spec_float) : SFltb f g = true <-> on_keys key_lt f g.
Proof.
  unfold SFltb, on_keys.
  destruct f as [s1 | s1 | | s1 m1 e1], g as [s2 | s2 | | s2 m2 e2];
    try destruct s1; try destruct s2; cbn;
    try (split; [discriminate | lia]);
    try (split; [lia | reflexivity]);
    try (split; [discriminate | tauto]);
    change (Pos.compare_cont Eq m1 m2) with (Pos.compare m1 m2).
  - destruct (Z.compare_spec e1 e2) as [E | E | E]; cbn;
      [ destruct (Pos.compare_spec m1 m2) as [F | F | F]; cbn | | ];
      split; try discriminate; try reflexivity; lia.
  - destruct (Z.compare_spec e1 e2) as [E | E | E]; cbn;
      [ destruct (Pos.compare_spec m1 m2) as [F | F | F]; cbn | | ];
      split; try discriminate; try reflexivity; lia.
Qed.

Lemma SFleb_key (f g : spec_float) : SFleb f g = true <-> on_keys key_le f g.
Proof.
  unfold SFleb, on_keys.
  destruct f as [s1 | s1 | | s1 m1 e1], g as [s2 | s2 | | s2 m2 e2];
    try destruct s1; try destruct s2; cbn;
    try (split; [discriminate | lia]);
    try (split; [lia | reflexivity]);
    try (split; [discriminate | tauto]);
    change (Pos.compare_cont Eq m1 m2) with (Pos.compare m1 m2).
  - destruct (Z.compare_spec e1 e2) as [E | E | E]; cbn;
      [ destruct (Pos.compare_spec m1 m2) as [F | F | F]; cbn | | ];
      split; try discriminate; try reflexivity; lia.
  - destruct (Z.compare_spec e1 e2) as [E | E | E]; cbn;
      [ destruct (Pos.compare_spec m1 m2) as [F | F | F]; cbn | | ];
      split; try discriminate; try reflexivity; lia.
Qed.

Lemma float_ltb_key (a b : float) :
  (a <? b)%float = true <-> on_keys key_lt (Prim2SF a) (Prim2SF b).
Proof. rewrite ltb_spec. apply SFltb_key. Qed.

Lemma float_leb_key (a b : float) :
  (a <=? b)%float = true <-> on_keys key_le (Prim2SF a) (Prim2SF b).
Proof. rewrite leb_spec. apply SFleb_key. Qed.

Ltac float_order :=
  cbn [nle nlt binary64] in *;
  repeat match goal with
    | |- _ = false => apply not_true_is_false; intro
    | H : (_ <? _)%float = true |- _ => apply float_ltb_key in H
    | H : (_ <=? _)%float = true |- _ => apply float_leb_key in H
    | |- (_ <? _)%float = true => apply float_ltb_key
    | |- (_ <=? _)%float = true => apply float_leb_key
    end;
  unfold on_keys, key_lt, key_le in *;
  repeat match goal with
    | H : context [SFkey _] |- _ => revert H
    end;
  repeat match goal with
    | |- context [SFkey ?f] => destruct (SFkey f) as [[[? ?] ?] | ]
    end;
  intros; try contradiction; lia.

#[export] Instance binary64_order : OrderLaws float.
Proof. split; intros; float_order. Qed.

Lemma Qlt_bool_iff (a b : Q) : Qlt_bool a b = true <-> (a < b)%Q.
Proof. unfold Qlt_bool, Qlt. apply Z.ltb_lt. Qed.

#[export] Instance exact_order : OrderLaws Q.
Proof.
  split; cbn [nle nlt exact]; intros a b.
  - intros c. rewrite !Qle_bool_iff. apply Qle_trans.
  - intros c. rewrite Qle_bool_iff, !Qlt_bool_iff. apply Qle_lt_trans.
  - intros c. rewrite Qle_bool_iff, !Qlt_bool_iff. apply Qlt_le_trans.
  - rewrite Qlt_bool_iff. intros H. apply not_true_is_false.
    rewrite Qle_bool_iff. now apply Qlt_not_le.
  - rewrite Qlt_bool_iff, Qle_bool_iff. apply Qlt_le_weak.
Qed.

(** ** binary64: where its operations are exact *)

(** The specification of the binary64 operations ([SpecFloat]) is read
    far enough to know the results that involve no rounding, and the sign
    of a difference. *)

Lemma digits2_pos_size (m : positive) : digits2_pos m = Pos.size m.
Proof. induction m; cbn; congruence. Qed.

Lemma digits2_pos_bounds (m : positive) :
  2 ^ (Zpos (digits2_pos m) - 1) <= Zpos m < 2 ^ Zpos (digits2_pos m).
Proof.
  rewrite digits2_pos_size.
  pose proof (Pos.size_gt m) as G. pose proof (Pos.size_le m) as L.
  apply Pos2Z.pos_lt_pos in G. apply Pos2Z.pos_le_pos in L.
  rewrite Pos2Z.inj_pow in G, L.
  change (Zpos m~0) with (2 * Zpos m) in L.
  replace (Zpos (Pos.size m)) with (Zpos (Pos.size m) - 1 + 1) in L at 1 by lia.
  rewrite Z.pow_add_r in L by lia. change (2 ^ 1) with 2 in L.
  split; lia.
Qed.

Lemma iter_xO (m d : positive) : Zpos (Pos.iter xO m d) = Zpos m * 2 ^ Zpos d.
Proof.
  induction d using Pos.peano_ind.
  - cbn. lia.
  - rewrite Pos.iter_succ, Pos2Z.inj_succ, Z.pow_succ_r by lia.
    change (Zpos (Pos.iter xO m d)~0) with (2 * Zpos (Pos.iter xO m d)). lia.
Qed.

Lemma shr_1_m (r : shr_record) :
  0 <= shr_m r -> shr_m (shr_1 r) = shr_m r / 2.
Proof.
  destruct r as [m rb sb]. cbn [shr_m]. intros H.
  destruct m as [ | p | p]; [reflexivity | | lia].
  destruct p as [p | p | ]; cbn [shr_1 shr_m].
  - change (Zpos p~1) with (2 * Zpos p + 1).
    apply Z.div_unique with 1; lia.
  - change (Zpos p~0) with (2 * Zpos p).
    apply Z.div_unique with 0; lia.
  - reflexivity.
Qed.

Lemma iter_shr_1_m (n : positive) : forall r : shr_record,
  0 <= shr_m r -> shr_m (iter_pos shr_1 n r) = shr_m r / 2 ^ Zpos n.
Proof.
  assert (NN : forall r, 0 <= shr_m r -> 0 <= shr_m (shr_1 r)).
  { intros r H. rewrite shr_1_m by exact H. apply Z.div_pos; lia. }
  induction n as [n IH | n IH | ]; intros r H; cbn [iter_pos].
  - rewrite IH, IH, shr_1_m; auto.
    + rewrite !Z.div_div by lia. f_equal.
      replace (Zpos n~1) with (1 + (Zpos n + Zpos n)) by lia.
      rewrite !Z.pow_add_r by lia. change (2 ^ 1) with 2. lia.
    + rewrite IH by auto. apply Z.div_pos; [auto | lia].
  - rewrite IH, IH; auto.
    + rewrite Z.div_div by lia. f_equal.
      replace (Zpos n~0) with (Zpos n + Zpos n) by lia.
      rewrite Z.pow_add_r by lia. reflexivity.
    + rewrite IH by auto. apply Z.div_pos; [auto | lia].
  - rewrite shr_1_m by exact H. reflexivity.
Qed.

Section Rounding.
Variables prec emax : Z.
Hypothesis prec_pos : 0 < prec.

(** Shifting a positive mantissa to its format keeps it positive when the
    exponent is not below the least one. *)
Lemma shr_fexp_positive (m : positive) (e : Z) (l : location) :
  SpecFloat.emin prec emax <= e ->
  0 < shr_m (fst (shr_fexp prec emax (Zpos m) e l)) /\
  SpecFloat.emin prec emax <= snd (shr_fexp prec emax (Zpos m) e l).
Proof.
  intros He. unfold shr_fexp, shr. cbn [Zdigits2].
  pose proof (digits2_pos_bounds m) as B.
  set (d := Zpos (digits2_pos m)) in *.
  assert (F : SpecFloat.fexp prec emax (d + e) - e <= Z.max (d - prec) 0).
  { unfold SpecFloat.fexp. lia. }
  destruct (SpecFloat.fexp prec emax (d + e) - e) as [ | n | n] eqn:E;
    cbn [fst snd].
  - split; [ | exact He]. destruct l as [ | []]; cbn; lia.
  - split; [ | lia].
    rewrite iter_shr_1_m by (destruct l as [ | []]; cbn; lia).
    assert (M : shr_m (shr_record_of_loc (Zpos m) l) = Zpos m)
      by (destruct l as [ | []]; reflexivity).
    rewrite M.
    assert (P : 2 ^ Zpos n <= 2 ^ (d - 1)) by (apply Z.pow_le_mono_r; lia).
    apply Z.div_str_pos. split; [apply Z.pow_pos_nonneg | ]; lia.
  - split; [ | exact He]. destruct l as [ | []]; cbn; lia.
Qed.


Lemma round_nearest_even_positive (m : Z) (l : location) :
  0 < m -> 0 < round_nearest_even m l.
Proof.
  intros H. destruct l as [ | []]; cbn; try lia.
  destruct (Z.even m); lia.
Qed.

Lemma binary_round_aux_nonzero (s : bool) (m : positive) (e : Z) (l : location) :
  SpecFloat.emin prec emax <= e ->
  SFnonzero s (binary_round_aux prec emax s (Zpos m) e l).
Proof.
  intros He. unfold binary_round_aux.
  destruct (shr_fexp_positive m e l He) as [P1 E1].
  destruct (shr_fexp prec emax (Zpos m) e l) as [mrs' e']. cbn [fst snd] in P1, E1.
  pose proof (round_nearest_even_positive _ (loc_of_shr_record mrs') P1) as P2.
  destruct (round_nearest_even (shr_m mrs') (loc_of_shr_record mrs'))
    as [ | m2 | m2]; try lia.
  destruct (shr_fexp_positive m2 e' loc_Exact E1) as [P3 _].
  destruct (shr_fexp prec emax (Zpos m2) e' loc_Exact) as [mrs'' e''].
  cbn [fst] in P3.
  destruct (shr_m mrs'') as [ | m3 | m3]; try lia.
  destruct (e'' <=? emax - prec); reflexivity.
Qed.

Lemma binary_round_nonzero (s : bool) (m : positive) (e : Z) :
  SpecFloat.emin prec emax <= e -> SFnonzero s (binary_round prec emax s m e).
Proof.
  intros He. unfold binary_round, shl_align.
  destruct (SpecFloat.fexp prec emax (Zpos (digits2_pos m) + e) - e) eqn:E;
    apply binary_round_aux_nonzero; try exact He.
  unfold SpecFloat.fexp. lia.
Qed.

Lemma canonical_emin (m : positive) (e : Z) :
  canonical_mantissa prec emax m e = true -> SpecFloat.emin prec emax <= e.
Proof.
  unfold canonical_mantissa, SpecFloat.fexp. rewrite Z.eqb_eq. lia.
Qed.

(** Aligned on the smaller exponent, the magnitudes of two canonical
    numbers compare as the numbers do. *)
Lemma shl_align_lt (m1 m2 : positive) (e1 e2 : Z) :
  canonical_mantissa prec emax m1 e1 = true ->
  canonical_mantissa prec emax m2 e2 = true ->
  e1 < e2 \/ (e1 = e2 /\ Zpos m1 < Zpos m2) ->
  Zpos (fst (shl_align m1 e1 (Z.min e1 e2)))
  < Zpos (fst (shl_align m2 e2 (Z.min e1 e2))).
Proof.
  unfold canonical_mantissa, SpecFloat.fexp. rewrite !Z.eqb_eq.
  intros C1 C2 [L | [E L]].
  - rewrite Z.min_l by lia. unfold shl_align. rewrite Z.sub_diag. cbn [fst].
    destruct (e1 - e2) as [ | d | d] eqn:E; try lia. cbn [fst].
    rewrite iter_xO.
    pose proof (digits2_pos_bounds m1) as B1.
    pose proof (digits2_pos_bounds m2) as B2.
    assert (D2 : Zpos (digits2_pos m2) = prec) by lia.
    assert (D1 : Zpos (digits2_pos m1) <= prec) by lia.
    rewrite D2 in B2.
    assert (P1 : 2 ^ Zpos (digits2_pos m1) <= 2 ^ prec)
      by (apply Z.pow_le_mono_r; lia).
    assert (P2 : 2 ^ prec = 2 ^ (prec - 1) * 2).
    { replace prec with (prec - 1 + 1) at 1 by lia.
      rewrite Z.pow_add_r by lia. reflexivity. }
    assert (P3 : 2 ^ 1 <= 2 ^ Zpos d) by (apply Z.pow_le_mono_r; lia).
    change (2 ^ 1) with 2 in P3. nia.
  - subst e2. rewrite Z.min_id. unfold shl_align. rewrite Z.sub_diag. exact L.
Qed.

Lemma binary_normalize_positive (d e : Z) :
  0 < d -> SpecFloat.emin prec emax <= e ->
  SFnonzero false (binary_normalize prec emax d e false).
Proof.
  intros Hd He. destruct d as [ | p | p]; try lia.
  now apply binary_round_nonzero.
Qed.

Lemma finite_ltb_cases (s1 s2 : bool) (m1 m2 : positive) (e1 e2 : Z) :
  SFltb (S754_finite s1 m1 e1) (S754_finite s2 m2 e2) = true ->
  (s1 = true /\ s2 = false) \/
  (s1 = false /\ s2 = false /\ (e1 < e2 \/ (e1 = e2 /\ Zpos m1 < Zpos m2))) \/
  (s1 = true /\ s2 = true /\ (e2 < e1 \/ (e2 = e1 /\ Zpos m2 < Zpos m1))).
Proof.
  unfold SFltb. destruct s1, s2; cbn; try discriminate; try tauto;
    change (Pos.compare_cont Eq m1 m2) with (Pos.compare m1 m2);
    intros H; [right; right | right; left];
    (destruct (Z.compare_spec e1 e2); cbn in H;
      [destruct (Pos.compare_spec m1 m2); cbn in H | | ];
      try discriminate; repeat split; lia).
Qed.

(** The difference of two numbers, the smaller one subtracted from the
    greater one, is positive after rounding: neither a zero nor a NaN.
    Subnormal numbers are what makes it so. *)
Lemma SFsub_positive (f g : spec_float) :
  SpecFloat.valid_binary prec emax f = true ->
  SpecFloat.valid_binary prec emax g = true ->
  SFltb f g = true -> SFnonzero false (SFsub prec emax g f).
Proof.
  intros Vf Vg H.
  destruct f as [s1 | s1 | | s1 m1 e1], g as [s2 | s2 | | s2 m2 e2];
    try (cbn in H; discriminate);
    try (destruct s1; try destruct s2; cbn in H |- *;
         try discriminate; reflexivity);
    try (destruct s2; cbn in H |- *; try discriminate; reflexivity).
  cbn in Vf, Vg. unfold bounded in Vf, Vg.
  apply andb_prop in Vf, Vg. destruct Vf as [C1 _], Vg as [C2 _].
  pose proof (canonical_emin _ _ C1). pose proof (canonical_emin _ _ C2).
  unfold SFsub. apply binary_normalize_positive; [ | lia].
  destruct (finite_ltb_cases _ _ _ _ _ _ H)
    as [[-> ->] | [(-> & -> & L) | (-> & -> & L)]]; cbn [cond_Zopp].
  - lia.
  - pose proof (shl_align_lt m1 m2 e1 e2 C1 C2 L) as A.
    rewrite Z.min_comm in A. lia.
  - pose proof (shl_align_lt m2 m1 e2 e1 C2 C1 L) as A. lia.
Qed.


Lemma SFcompare_refl (f : spec_float) :
  f <> S754_nan -> SFcompare f f = Some Eq.
Proof.
  destruct f as [s | s | | s m e]; try destruct s; cbn; try congruence;
    intros _; rewrite Z.compare_refl;
    change (Pos.compare_cont Eq m m) with (Pos.compare m m);
    now rewrite Pos.compare_refl.
Qed.

Lemma SFeqb_cases (f g : spec_float) :
  SFeqb f g = true ->
  (SFzero f = true /\ SFzero g = true) \/ (f = g /\ f <> S754_nan).
Proof.
  unfold SFeqb.
  destruct f as [s | s | | s m e], g as [s' | s' | | s' m' e'];
    try destruct s; try destruct s'; cbn; try discriminate;
    try (intros _; left; split; reflexivity);
    try (intros _; right; split; [reflexivity | discriminate]).
  all: change (Pos.compare_cont Eq m m') with (Pos.compare m m').
  all: destruct (Z.compare_spec e e'); try discriminate.
  all: destruct (Pos.compare_spec m m'); try discriminate.
  all: intros _; right; subst; split; [reflexivity | discriminate].
Qed.

(** Comparisons do not tell two equal values apart. *)
Lemma SFcompare_compat (f g h : spec_float) :
  SFeqb f g = true ->
  SFcompare f h = SFcompare g h /\ SFcompare h f = SFcompare h g.
Proof.
  intros H. destruct (SFeqb_cases f g H) as [[Zf Zg] | [-> _]]; [ | now split].
  destruct f, g; try discriminate. destruct h; split; reflexivity.
Qed.

Lemma SFeqb_finite (f g : spec_float) :
  SFeqb f g = true -> SFfinite f = SFfinite g.
Proof.
  intros H. destruct (SFeqb_cases f g H) as [[Zf Zg] | [-> _]]; [ | reflexivity].
  destruct f, g; try discriminate. reflexivity.
Qed.

(** [x - x0] is a zero when [x] equals the finite [x0]. *)
Lemma SFsub_same (f g : spec_float) :
  SFeqb f g = true -> SFfinite g = true -> SFzero (SFsub prec emax f g) = true.
Proof.
  intros H Hg. destruct (SFeqb_cases f g H) as [[Zf Zg] | [-> _]].
  - destruct f as [ | | | ], g as [ | | | ]; try discriminate.
    cbn. destruct s, s0; reflexivity.
  - destruct g as [s | s | | s m e]; try discriminate.
    + destruct s; reflexivity.
    + unfold SFsub. rewrite Z.sub_diag. reflexivity.
Qed.

(** A finite difference has finite operands. *)
Lemma SFsub_finite (f g : spec_float) :
  SFfinite (SFsub prec emax f g) = true -> SFfinite f = true /\ SFfinite g = true.
Proof.
  destruct f as [s | s | | s m e], g as [s' | s' | | s' m' e'];
    try destruct s; try destruct s'; cbn; try discriminate; auto.
Qed.

Lemma SFmul_zero (f g : spec_float) :
  SFfinite f = true -> SFzero g = true -> SFzero (SFmul prec emax f g) = true.
Proof.
  destruct f as [s | s | | s m e], g as [s' | s' | | s' m' e'];
    cbn; try discriminate; auto.
Qed.

Lemma SFdiv_zero (f g : spec_float) :
  SFzero f = true -> SFnonzero false g -> SFzero (SFdiv prec emax f g) = true.
Proof.
  destruct f as [s | s | | s m e], g as [s' | s' | | s' m' e'];
    cbn; try discriminate; try contradiction; auto.
Qed.

Lemma SFadd_zero (f g : spec_float) :
  SFfinite f = true -> SFzero g = true -> SFeqb (SFadd prec emax f g) f = true.
Proof.
  destruct f as [s | s | | s m e], g as [s' | s' | | s' m' e'];
    try discriminate; intros _ _.
  - destruct s, s'; reflexivity.
  - unfold SFadd, SFeqb. rewrite SFcompare_refl; [reflexivity | discriminate].
Qed.

(** The same operations when nothing is known to be finite: a NaN is the
    only other result. *)
Lemma SFsub_same_cases (f g : spec_float) :
  SFeqb f g = true ->
  SFzero (SFsub prec emax f g) = true \/ SFsub prec emax f g = S754_nan.
Proof.
  intros H. destruct g as [s | s | | s m e] eqn:E.
  - left. apply SFsub_same; [assumption | reflexivity].
  - right. destruct (SFeqb_cases f _ H) as [[_ Zg] | [-> _]]; [discriminate | ].
    destruct s; reflexivity.
  - destruct (SFeqb_cases f _ H) as [[_ Zg] | [-> Hn]];
      [discriminate | contradiction].
  - left. apply SFsub_same; [assumption | reflexivity].
Qed.

Lemma SFmul_zero_cases (f g : spec_float) :
  SFzero g = true \/ g = S754_nan ->
  SFzero (SFmul prec emax f g) = true \/ SFmul prec emax f g = S754_nan.
Proof.
  intros [H | ->].
  - destruct f as [s | s | | s m e], g as [s' | s' | | s' m' e'];
      try discriminate; cbn; auto.
  - right. destruct f; reflexivity.
Qed.

Lemma SFdiv_zero_cases (f g : spec_float) :
  SFzero f = true \/ f = S754_nan -> SFnonzero false g ->
  SFzero (SFdiv prec emax f g) = true \/ SFdiv prec emax f g = S754_nan.
Proof.
  intros [H | ->] Hg.
  - left. now apply SFdiv_zero.
  - right. reflexivity.
Qed.

Lemma SFadd_zero_cases (f g : spec_float) :
  SFzero g = true \/ g = S754_nan ->
  SFadd prec emax f g = S754_nan \/ SFeqb (SFadd prec emax f g) f = true.
Proof.
  intros [H | ->].
  - destruct f as [s | s | | s m e] eqn:E.
    + right. apply SFadd_zero; [reflexivity | assumption].
    + right. destruct g as [s' | s' | | s' m' e']; try discriminate.
      destruct s; reflexivity.
    + left. reflexivity.
    + right. apply SFadd_zero; [reflexivity | assumption].
  - left. destruct f; reflexivity.
Qed.

(** At its left endpoint the interpolation formula gives a value equal
    to [y0], or a NaN. *)
Lemma SFinterpolate_left_cases (x0 y0 x1 y1 x : spec_float) :
  SpecFloat.valid_binary prec emax x0 = true ->
  SpecFloat.valid_binary prec emax x1 = true ->
  SFeqb x x0 = true -> SFltb x0 x1 = true ->
  let r := SFadd prec emax y0
             (SFdiv prec emax
                (SFmul prec emax (SFsub prec emax y1 y0) (SFsub prec emax x x0))
                (SFsub prec emax x1 x0)) in
  r = S754_nan \/ SFeqb r y0 = true.
Proof.
  intros V0 V1 Hx Hlt r. apply SFadd_zero_cases.
  apply SFdiv_zero_cases; [ | now apply SFsub_positive].
  apply SFmul_zero_cases. now apply SFsub_same_cases.
Qed.

(** The interpolation formula at its left endpoint: every operation is
    exact, the result equals [y0]. *)
Lemma SFinterpolate_left (x0 y0 x1 y1 x : spec_float) :
  SpecFloat.valid_binary prec emax x0 = true ->
  SpecFloat.valid_binary prec emax x1 = true ->
  SFeqb x x0 = true -> SFfinite x0 = true -> SFltb x0 x1 = true ->
  SFfinite (SFsub prec emax y1 y0) = true ->
  SFeqb (SFadd prec emax y0
           (SFdiv prec emax
              (SFmul prec emax (SFsub prec emax y1 y0) (SFsub prec emax x x0))
              (SFsub prec emax x1 x0))) y0 = true.
Proof.
  intros V0 V1 Hx F0 Hlt Fd.
  apply SFadd_zero; [apply SFsub_finite in Fd; tauto | ].
  apply SFdiv_zero; [ | now apply SFsub_positive].
  apply SFmul_zero; [assumption | ].
  now apply SFsub_same.
Qed.

End Rounding.

Local Open Scope float_scope.

Lemma is_finite_spec (x : float) : is_finite x = SFfinite (Prim2SF x).
Proof.
  unfold is_finite, is_nan, is_infinity.
  rewrite !FloatAxioms.eqb_spec, abs_spec.
  change (Prim2SF infinity) with (S754_infinity false).
  destruct (Prim2SF x) as [s | s | | s m e] eqn:E; try reflexivity.
  - destruct s; reflexivity.
  - unfold SFeqb at 1. rewrite SFcompare_refl by discriminate.
    destruct s; reflexivity.
Qed.

Lemma eqb_compat (a a' v : float) :
  (a =? a') = true ->
  (a <=? v) = (a' <=? v) /\ (v <=? a) = (v <=? a') /\
  (a <? v) = (a' <? v) /\ (v <? a) = (v <? a') /\
  (a =? v) = (a' =? v) /\ (v =? a) = (v =? a').
Proof.
  rewrite FloatAxioms.eqb_spec. intros H.
  destruct (SFcompare_compat _ _ (Prim2SF v) H) as [L R].
  rewrite !FloatAxioms.leb_spec, !FloatAxioms.ltb_spec, !FloatAxioms.eqb_spec.
  unfold SFleb, SFltb, SFeqb. rewrite L, R. repeat split.
Qed.

Lemma eqb_refl_of (a b : float) : (a =? b) = true -> (a =? a) = true.
Proof.
  intros H. destruct (eqb_compat a b a H) as (_ & _ & _ & _ & _ & E).
  congruence.
Qed.

Lemma eqb_leb (a b : float) : (a =? b) = true -> (a <=? b) = true.
Proof.
  rewrite FloatAxioms.eqb_spec, FloatAxioms.leb_spec. unfold SFeqb, SFleb.
  destruct (SFcompare (Prim2SF a) (Prim2SF b)) as [[] | ]; congruence.
Qed.

Lemma eqb_sym (a b : float) : (a =? b) = true -> (b =? a) = true.
Proof.
  intros H. destruct (eqb_compat a b b H) as (_ & _ & _ & _ & E & E').
  congruence.
Qed.

Lemma eqb_trans (a b c : float) :
  (a =? b) = true -> (b =? c) = true -> (a =? c) = true.
Proof.
  intros H H'. destruct (eqb_compat a b c H) as (_ & _ & _ & _ & E & _).
  congruence.
Qed.

Lemma eqb_is_finite (a b : float) :
  (a =? b) = true -> is_finite a = is_finite b.
Proof.
  rewrite FloatAxioms.eqb_spec, !is_finite_spec. apply SFeqb_finite.
Qed.

Lemma sub_is_finite (a b : float) :
  is_finite (a - b) = true -> is_finite a = true /\ is_finite b = true.
Proof. rewrite !is_finite_spec, sub_spec. apply SFsub_finite. Qed.

(** In binary64 the difference of two values, the smaller one subtracted
    from the greater one, is greater than zero: it is neither zero nor a
    NaN. *)
Lemma sub_positive (a b : float) : (a <? b) = true -> (0 <? b - a) = true.
Proof.
  rewrite !FloatAxioms.ltb_spec, sub_spec. intros H.
  pose proof (SFsub_positive prec emax eq_refl _ _
                (Prim2SF_valid a) (Prim2SF_valid b) H) as P.
  unfold SF64sub. change (Prim2SF 0) with (S754_zero false).
  destruct (SFsub prec emax (Prim2SF b) (Prim2SF a)) as [s | s | | s m e];
    cbn in P; try contradiction; subst s; reflexivity.
Qed.

Lemma SFeqb_irrefl_nan (f : spec_float) : SFeqb f f = false -> f = S754_nan.
Proof.
  unfold SFeqb. destruct f as [s | s | | s m e]; cbn; try reflexivity;
    try discriminate.
  - destruct s; discriminate.
  - destruct s; rewrite Z.compare_refl, Pos.compare_cont_refl; discriminate.
Qed.

Lemma is_nan_Prim2SF (v : float) : is_nan v = true -> Prim2SF v = S754_nan.
Proof.
  unfold is_nan. intros H. apply negb_true_iff in H.
  rewrite FloatAxioms.eqb_spec in H. now apply SFeqb_irrefl_nan.
Qed.

(** Every comparison with a NaN is false. *)
Lemma nan_compare (v a : float) :
  is_nan v = true ->
  (a <=? v) = false /\ (v <=? a) = false /\
  (a <? v) = false /\ (v <? a) = false.
Proof.
  intros H. apply is_nan_Prim2SF in H.
  rewrite !FloatAxioms.leb_spec, !FloatAxioms.ltb_spec, H. unfold SFleb, SFltb.
  destruct (Prim2SF a); repeat split; reflexivity.
Qed.

Lemma nan_no_bracket (l : list float) (v : float) (lo : Z) :
  is_nan v = true -> is_bracket l v lo = false.
Proof.
  intros H. unfold is_bracket.
  destruct (vec_at l lo) as [a | | ]; try reflexivity.
  destruct (vec_at l (lo + 1)) as [b | | ]; try reflexivity.
  cbn [nle nlt binary64].
  destruct (nan_compare v a H) as (-> & _). reflexivity.
Qed.

Lemma Prim2SF_is_nan (v : float) : Prim2SF v = S754_nan -> is_nan v = true.
Proof.
  intros H. unfold is_nan. rewrite FloatAxioms.eqb_spec, H. reflexivity.
Qed.

Local Close Scope float_scope.

(** ** Vectors *)

Section Vectors.
Context {A : Type}.

Lemma vec_at_Ok (v : list A) (i : Z) (a : A) :
  vec_at v i = Ok a <-> 0 <= i /\ nth_error v (Z.to_nat i) = Some a.
Proof.
  unfold vec_at. destruct (Z.ltb_spec i 0).
  - split; [discriminate | lia].
  - destruct (nth_error v (Z.to_nat i)); split;
      try discriminate; try (intros [_ ?]; discriminate).
    + intros [= ->]. auto.
    + intros [_ [= ->]]. reflexivity.
Qed.

Lemma vec_at_range (v : list A) (i : Z) (a : A) :
  vec_at v i = Ok a -> 0 <= i < Z.of_nat (length v).
Proof.
  rewrite vec_at_Ok. intros [Hi Hn]. split; [assumption | ].
  assert (Z.to_nat i < length v)%nat by (apply nth_error_Some; congruence).
  lia.
Qed.

Lemma vec_at_defined (v : list A) (i : Z) :
  0 <= i < Z.of_nat (length v) -> exists a, vec_at v i = Ok a.
Proof.
  intros Hi. destruct (nth_error v (Z.to_nat i)) as [a | ] eqn:E.
  - exists a. apply vec_at_Ok. split; [lia | assumption].
  - apply nth_error_None in E. lia.
Qed.

Lemma vec_at_cons (b : A) (v : list A) (i : Z) :
  0 <= i -> vec_at (b :: v) (i + 1) = vec_at v i.
Proof.
  intros Hi. unfold vec_at.
  destruct (Z.ltb_spec (i + 1) 0); [lia | ].
  destruct (Z.ltb_spec i 0); [lia | ].
  replace (Z.to_nat (i + 1)) with (S (Z.to_nat i)) by lia. reflexivity.
Qed.

Lemma length_list_set (v : list A) (n : nat) (a : A) :
  length (list_set v n a) = length v.
Proof.
  revert n. induction v as [ | b v IH]; intros [ | n]; cbn; congruence.
Qed.

Lemma nth_error_list_set_same (v : list A) (n : nat) (a : A) :
  (n < length v)%nat -> nth_error (list_set v n a) n = Some a.
Proof.
  revert n. induction v as [ | b v IH]; intros [ | n]; cbn; intros H;
    try lia; [reflexivity | apply IH; lia].
Qed.

Lemma nth_error_list_set_other (v : list A) (n m : nat) (a : A) :
  n <> m -> nth_error (list_set v n a) m = nth_error v m.
Proof.
  revert n m. induction v as [ | b v IH]; intros [ | n] [ | m] H; cbn;
    try reflexivity; try congruence.
  apply IH. congruence.
Qed.

Lemma vec_set_Ok (v : list A) (i : Z) (a : A) :
  0 <= i < Z.of_nat (length v) ->
  vec_set v i a = Ok (list_set v (Z.to_nat i) a).
Proof.
  intros Hi. unfold vec_set.
  destruct (Z.ltb_spec i 0); [lia | ].
  destruct (Z.leb_spec (Z.of_nat (length v)) i); [lia | reflexivity].
Qed.

Lemma vec_at_list_set_same (v : list A) (i : Z) (a : A) :
  0 <= i < Z.of_nat (length v) ->
  vec_at (list_set v (Z.to_nat i) a) i = Ok a.
Proof.
  intros Hi. apply vec_at_Ok. split; [lia | ].
  apply nth_error_list_set_same. lia.
Qed.

Lemma vec_at_list_set_other (v : list A) (i j : Z) (a : A) :
  0 <= i -> 0 <= j -> i <> j ->
  vec_at (list_set v (Z.to_nat i) a) j = vec_at v j.
Proof.
  intros Hi Hj Hij. unfold vec_at.
  rewrite nth_error_list_set_other by lia. reflexivity.
Qed.

End Vectors.

(** ** The bracket search *)

Section Search.
Context {D : Type} {N : Number D}.

Lemma is_bracket_true (list : list D) (v : D) (lo : Z) :
  is_bracket list v lo = true <->
  exists a b, vec_at list lo = Ok a /\ vec_at list (lo + 1) = Ok b /\
              (a <=? v)%num = true /\ (b >? v)%num = true.
Proof.
  unfold is_bracket. split.
  - destruct (vec_at list lo) as [a | | ]; try discriminate.
    destruct (vec_at list (lo + 1)) as [b | | ]; try discriminate.
    intros H. apply andb_true_iff in H. exists a, b. tauto.
  - intros (a & b & -> & -> & Ha & Hb). now rewrite Ha, Hb.
Qed.

(** The loop entered at [i] with [n] iterations left, all of whose reads
    are inside the vector: it stops at the first bracket at or after [i],
    or it ends without having met one and leaves the out-parameters
    alone. *)
Lemma scan_spec (list : list D) (v : D) (l0 u0 : Z) (n : nat) (i : Z) :
  0 <= i -> i + Z.of_nat n < Z.of_nat (length list) \/ n = O ->
  (exists lo, i <= lo < i + Z.of_nat n /\ is_bracket list v lo = true /\
              (forall j, i <= j < lo -> is_bracket list v j = false) /\
              InterpolableLUT.scan list v n i l0 u0 = Ok (true, lo, lo + 1))
  \/ ((forall j, i <= j < i + Z.of_nat n -> is_bracket list v j = false) /\
      InterpolableLUT.scan list v n i l0 u0 = Ok (false, l0, u0)).
Proof.
  revert i. induction n as [ | n IH]; intros i Hi Hn.
  - right. split; [intros; lia | reflexivity].
  - destruct Hn as [Hn | Hn]; [ | discriminate].
    destruct (vec_at_defined list i) as [a Ha]; [lia | ].
    destruct (vec_at_defined list (i + 1)) as [b Hb]; [lia | ].
    assert (Hstep : is_bracket list v i = false ->
      InterpolableLUT.scan list v (S n) i l0 u0 =
      InterpolableLUT.scan list v n (i + 1) l0 u0).
    { unfold is_bracket. cbn [InterpolableLUT.scan]. rewrite Ha, Hb. cbn [bind].
      destruct (a <=? v)%num; [ | reflexivity].
      cbn [andb]. now intros ->. }
    destruct (is_bracket list v i) eqn:Hbr.
    + left. exists i. repeat split; try lia; try assumption.
      revert Hbr. unfold is_bracket. cbn [InterpolableLUT.scan].
      rewrite Ha, Hb. cbn [bind].
      destruct (a <=? v)%num; [ | discriminate].
      cbn [andb]. now intros ->.
    + rewrite (Hstep eq_refl).
      destruct (IH (i + 1) ltac:(lia) ltac:(left; lia))
        as [(lo & Hlo & Hb1 & Hfirst & Hs) | [Hnone Hs]].
      * left. exists lo. repeat split; try lia; try assumption.
        intros j Hj. destruct (Z.eq_dec j i) as [-> | ]; [assumption | ].
        apply Hfirst. lia.
      * right. split; [ | assumption].
        intros j Hj. destruct (Z.eq_dec j i) as [-> | ]; [assumption | ].
        apply Hnone. lia.
Qed.

End Search.

(** ** Sorted sequences *)

Section Sorted.
Context {D : Type} {N : Number D} {L : OrderLaws D}.

Lemma nle_not_nlt (a b : D) : (a <=? b)%num = true -> (b <? a)%num = false.
Proof.
  intros H. apply not_true_is_false. intros Hlt.
  apply nlt_not_nle in Hlt. congruence.
Qed.

Lemma ascending_adjacent (l : list D) (i : Z) (a b : D) :
  ascending l = true ->
  vec_at l i = Ok a -> vec_at l (i + 1) = Ok b -> (a <=? b)%num = true.
Proof.
  revert i. induction l as [ | c l IH]; intros i Hs Ha Hb.
  - apply vec_at_range in Ha. cbn in Ha. lia.
  - pose proof (vec_at_range _ _ _ Ha) as Hi.
    destruct (Z.eq_dec i 0) as [-> | Hne].
    + cbn in Ha. injection Ha as ->.
      destruct l as [ | d l]; [apply vec_at_range in Hb; cbn in Hb; lia | ].
      cbn in Hb. injection Hb as ->.
      cbn in Hs. apply andb_true_iff in Hs. tauto.
    + replace i with ((i - 1) + 1) in Ha by lia.
      replace (i + 1) with ((i - 1 + 1) + 1) in Hb by lia.
      rewrite vec_at_cons in Ha, Hb by lia.
      apply (IH (i - 1)); try assumption.
      destruct l as [ | d l]; [reflexivity | ].
      cbn in Hs. apply andb_true_iff in Hs. tauto.
Qed.

Lemma ascending_le (l : list D) (i j : Z) (a b : D) :
  ascending l = true -> i < j ->
  vec_at l i = Ok a -> vec_at l j = Ok b -> (a <=? b)%num = true.
Proof.
  intros Hs Hij Ha. revert b.
  assert (Hgen : forall k : nat, forall b,
             vec_at l (i + 1 + Z.of_nat k) = Ok b -> (a <=? b)%num = true).
  { induction k as [ | k IH]; intros b Hb.
    - rewrite Z.add_0_r in Hb. eapply ascending_adjacent; eassumption.
    - pose proof (vec_at_range _ _ _ Hb) as Hr.
      pose proof (vec_at_range _ _ _ Ha) as Hr'.
      destruct (vec_at_defined l (i + 1 + Z.of_nat k)) as [c Hc]; [lia | ].
      apply nle_trans with c; [now apply IH | ].
      apply (ascending_adjacent l (i + 1 + Z.of_nat k)); try assumption.
      replace (i + 1 + Z.of_nat k + 1) with (i + 1 + Z.of_nat (S k)) by lia.
      assumption. }
  intros b Hb. apply (Hgen (Z.to_nat (j - i - 1))).
  replace (i + 1 + Z.of_nat (Z.to_nat (j - i - 1))) with j by lia.
  assumption.
Qed.

(** A value below the first element of a sorted sequence has no bracket. *)
Lemma below_no_bracket (l : list D) (v a0 : D) :
  ascending l = true -> vec_at l 0 = Ok a0 -> (v <? a0)%num = true ->
  forall lo, is_bracket l v lo = false.
Proof.
  intros Hs H0 Hv lo. unfold is_bracket.
  destruct (vec_at l lo) as [a | | ] eqn:Ha; try reflexivity.
  destruct (vec_at l (lo + 1)) as [b | | ] eqn:Hb; try reflexivity.
  assert (Hva : (v <? a)%num = true).
  { pose proof (vec_at_range _ _ _ Ha) as Hr.
    destruct (Z.eq_dec lo 0) as [-> | Hne]; [congruence | ].
    apply nlt_nle_trans with a0; [assumption | ].
    apply (ascending_le l 0 lo); try assumption. lia. }
  rewrite (nlt_not_nle _ _ Hva). reflexivity.
Qed.

(** A value at or above the last element of a sorted sequence has no
    bracket. *)
Lemma above_no_bracket (l : list D) (v b0 : D) :
  ascending l = true ->
  vec_at l (Z.of_nat (length l) - 1) = Ok b0 -> (b0 <=? v)%num = true ->
  forall lo, is_bracket l v lo = false.
Proof.
  intros Hs H0 Hv lo. unfold is_bracket.
  destruct (vec_at l lo) as [a | | ] eqn:Ha; try reflexivity.
  destruct (vec_at l (lo + 1)) as [b | | ] eqn:Hb; try reflexivity.
  assert (Hbv : (b <=? v)%num = true).
  { pose proof (vec_at_range _ _ _ Hb) as Hr.
    destruct (Z.eq_dec (lo + 1) (Z.of_nat (length l) - 1)) as [E | Hne];
      [rewrite E in Hb; congruence | ].
    apply nle_trans with b0; [ | assumption].
    apply (ascending_le l (lo + 1) (Z.of_nat (length l) - 1));
      try assumption. lia. }
  rewrite (nle_not_nlt _ _ Hbv). apply andb_false_r.
Qed.

End Sorted.

(** ** [find_nearest_indexes] *)

Section FindNearestIndexes.
Context {D : Type} {N : Number D}.

Lemma find_nearest_indexes_short (list : list D) (list_len : Z) (v : D) (l0 u0 : Z) :
  list_len < 2 ->
  InterpolableLUT.find_nearest_indexes list list_len v l0 u0 = Ok (false, l0, u0).
Proof.
  intros H. unfold InterpolableLUT.find_nearest_indexes.
  replace (Z.to_nat (list_len - 1)) with O by lia. reflexivity.
Qed.

Lemma find_nearest_indexes_spec (list : list D) (list_len : Z) (v : D) (l0 u0 : Z) :
  list_len <= Z.of_nat (length list) ->
  (exists lo, 0 <= lo <= list_len - 2 /\ is_bracket list v lo = true /\
              (forall j, 0 <= j < lo -> is_bracket list v j = false) /\
              InterpolableLUT.find_nearest_indexes list list_len v l0 u0
              = Ok (true, lo, lo + 1))
  \/ ((forall lo, 0 <= lo <= list_len - 2 -> is_bracket list v lo = false) /\
      InterpolableLUT.find_nearest_indexes list list_len v l0 u0
      = Ok (false, l0, u0)).
Proof.
  intros Hlen. unfold InterpolableLUT.find_nearest_indexes.
  destruct (scan_spec list v l0 u0 (Z.to_nat (list_len - 1)) 0)
    as [(lo & Hlo & Hb & Hfirst & Hs) | [Hnone Hs]]; [lia | lia | | ].
  - left. exists lo. repeat split; try assumption; lia.
  - right. split; [ | assumption]. intros lo Hlo. apply Hnone. lia.
Qed.

Lemma find_nearest_indexes_none (list : list D) (list_len : Z) (v : D) (l0 u0 : Z) :
  list_len <= Z.of_nat (length list) ->
  (forall lo, is_bracket list v lo = false) ->
  InterpolableLUT.find_nearest_indexes list list_len v l0 u0 = Ok (false, l0, u0).
Proof.
  intros Hlen Hnone.
  destruct (find_nearest_indexes_spec list list_len v l0 u0 Hlen)
    as [(lo & _ & Hb & _) | [_ Hs]]; [ | assumption].
  rewrite Hnone in Hb. discriminate.
Qed.

Lemma find_nearest_indexes_found (list : list D) (list_len : Z) (v : D)
    (l0 u0 : Z) (lo hi : Z) :
  InterpolableLUT.find_nearest_indexes list list_len v l0 u0 = Ok (true, lo, hi) ->
  hi = lo + 1 /\ 0 <= lo <= list_len - 2 /\ is_bracket list v lo = true.
Proof.
  unfold InterpolableLUT.find_nearest_indexes.
  assert (Hgen : forall n i, 0 <= i ->
            InterpolableLUT.scan list v n i l0 u0 = Ok (true, lo, hi) ->
            hi = lo + 1 /\ i <= lo < i + Z.of_nat n /\ is_bracket list v lo = true).
  { induction n as [ | n IH]; intros i Hi; cbn [InterpolableLUT.scan].
    - discriminate.
    - unfold is_bracket.
      destruct (vec_at list i) as [a | | ] eqn:Ha; cbn [bind]; try discriminate.
      destruct (a <=? v)%num eqn:Hle.
      + destruct (vec_at list (i + 1)) as [b | | ] eqn:Hb; cbn [bind];
          try discriminate.
        destruct (b >? v)%num eqn:Hgt.
        * intros [= <- <-]. rewrite Ha, Hb, Hle, Hgt. repeat split; lia.
        * intros H. apply IH in H; [ | lia]. intuition lia.
      + intros H. apply IH in H; [ | lia]. intuition lia. }
  intros H. apply Hgen in H; [ | lia]. intuition lia.
Qed.

End FindNearestIndexes.

(** ** Brackets of a sorted sequence *)

Section Brackets.
Context {D : Type} {N : Number D} {L : OrderLaws D}.

Lemma nlt_irrefl (a : D) : (a <? a)%num = false.
Proof.
  apply not_true_is_false. intros H.
  pose proof (nlt_nle _ _ H). pose proof (nlt_not_nle _ _ H). congruence.
Qed.

Lemma ascending_intro (l : list D) :
  (forall i a b, vec_at l i = Ok a -> vec_at l (i + 1) = Ok b ->
                 (a <=? b)%num = true) ->
  ascending l = true.
Proof.
  induction l as [ | a l IH]; intros H; [reflexivity | ].
  destruct l as [ | b l]; [reflexivity | ].
  cbn [ascending]. apply andb_true_iff. split.
  - apply (H 0); reflexivity.
  - apply IH. intros i c d Hc Hd. apply (H (i + 1)).
    + rewrite vec_at_cons; [assumption | ]. apply vec_at_range in Hc. lia.
    + rewrite vec_at_cons; [assumption | ]. apply vec_at_range in Hd. lia.
Qed.

Lemma increasing_adjacent (l : list D) (i : Z) (a b : D) :
  increasing l = true ->
  vec_at l i = Ok a -> vec_at l (i + 1) = Ok b -> (a <? b)%num = true.
Proof.
  revert i. induction l as [ | c l IH]; intros i Hs Ha Hb.
  - apply vec_at_range in Ha. cbn in Ha. lia.
  - pose proof (vec_at_range _ _ _ Ha) as Hi.
    destruct (Z.eq_dec i 0) as [-> | Hne].
    + cbn in Ha. injection Ha as ->.
      destruct l as [ | d l]; [apply vec_at_range in Hb; cbn in Hb; lia | ].
      cbn in Hb. injection Hb as ->.
      cbn in Hs. apply andb_true_iff in Hs. tauto.
    + replace i with ((i - 1) + 1) in Ha by lia.
      replace (i + 1) with ((i - 1 + 1) + 1) in Hb by lia.
      rewrite vec_at_cons in Ha, Hb by lia.
      apply (IH (i - 1)); try assumption.
      destruct l as [ | d l]; [reflexivity | ].
      cbn in Hs. apply andb_true_iff in Hs. tauto.
Qed.

Lemma increasing_ascending (l : list D) : increasing l = true -> ascending l = true.
Proof.
  intros H. apply ascending_intro. intros i a b Ha Hb.
  apply nlt_nle. eapply increasing_adjacent; eassumption.
Qed.

(** In a sorted sequence a later bracket belongs to a larger value. *)
Lemma bracket_lt (l : list D) (v v' : D) (lo lo' : Z) :
  ascending l = true ->
  is_bracket l v lo = true -> is_bracket l v' lo' = true ->
  lo < lo' -> (v <? v')%num = true.
Proof.
  intros Hs H H' Hlt.
  apply is_bracket_true in H as (a & b & Ha & Hb & Hle & Hgt).
  apply is_bracket_true in H' as (a' & b' & Ha' & Hb' & Hle' & Hgt').
  apply nlt_nle_trans with a'; [ | assumption].
  destruct (Z.eq_dec (lo + 1) lo') as [E | Hne].
  - rewrite E in Hb. congruence.
  - apply nlt_nle_trans with b; [assumption | ].
    apply (ascending_le l (lo + 1) lo'); try assumption. lia.
Qed.

Lemma bracket_unique (l : list D) (v : D) (lo lo' : Z) :
  ascending l = true ->
  is_bracket l v lo = true -> is_bracket l v lo' = true -> lo = lo'.
Proof.
  intros Hs H H'.
  destruct (Z.lt_trichotomy lo lo') as [Hlt | [E | Hlt]]; [ | assumption | ].
  - pose proof (bracket_lt l v v lo lo' Hs H H' Hlt) as Hv.
    rewrite nlt_irrefl in Hv. discriminate.
  - pose proof (bracket_lt l v v lo' lo Hs H' H Hlt) as Hv.
    rewrite nlt_irrefl in Hv. discriminate.
Qed.

Lemma bracket_monotone (l : list D) (v v' : D) (lo lo' : Z) :
  ascending l = true ->
  is_bracket l v lo = true -> is_bracket l v' lo' = true ->
  (v <=? v')%num = true -> lo <= lo'.
Proof.
  intros Hs H H' Hv.
  destruct (Z.le_gt_cases lo lo') as [Hle | Hgt]; [assumption | ].
  pose proof (bracket_lt l v' v lo' lo Hs H' H ltac:(lia)) as Hlt.
  apply nlt_not_nle in Hlt. congruence.
Qed.

(** In a sorted sequence, the search for a value that has a bracket
    returns that bracket. *)
Lemma find_nearest_indexes_at (l : list D) (list_len : Z) (v : D) (lo l0 u0 : Z) :
  list_len <= Z.of_nat (length l) -> ascending l = true ->
  0 <= lo <= list_len - 2 -> is_bracket l v lo = true ->
  InterpolableLUT.find_nearest_indexes l list_len v l0 u0 = Ok (true, lo, lo + 1).
Proof.
  intros Hlen Hs Hlo Hb.
  destruct (find_nearest_indexes_spec l list_len v l0 u0 Hlen)
    as [(lo' & _ & Hb' & _ & Hfind) | [Hnone _]].
  - now rewrite (bracket_unique l v lo lo' Hs Hb Hb').
  - rewrite Hnone in Hb by assumption. discriminate.
Qed.

(** A bracket lies inside the range of a sorted sequence. *)
Lemma bracket_in_range (l : list D) (v : D) (lo : Z) :
  ascending l = true -> is_bracket l v lo = true -> in_range l v = true.
Proof.
  intros Hs H. apply is_bracket_true in H as (a & b & Ha & Hb & Hle & Hgt).
  pose proof (vec_at_range _ _ _ Ha) as Hra.
  pose proof (vec_at_range _ _ _ Hb) as Hrb.
  destruct (vec_at_defined l 0) as [a0 H0]; [lia | ].
  destruct (vec_at_defined l (Z.of_nat (length l) - 1)) as [b0 H1]; [lia | ].
  unfold in_range. rewrite H0, H1. apply andb_true_iff. split.
  - destruct (Z.eq_dec lo 0) as [E | Hne]; [rewrite E in Ha; congruence | ].
    apply nle_trans with a; [ | assumption].
    apply (ascending_le l 0 lo); try assumption. lia.
  - destruct (Z.eq_dec (lo + 1) (Z.of_nat (length l) - 1)) as [E | Hne];
      [rewrite E in Hb; congruence | ].
    apply nlt_nle_trans with b; [assumption | ].
    apply (ascending_le l (lo + 1) (Z.of_nat (length l) - 1));
      try assumption. lia.
Qed.

End Brackets.

(** ** The synthetic row *)

Section SyntheticRow.
Context {D : Type} {N : Number D}.

Import InterpolableLUT.

Lemma fill_spec (s : t D) (lo hi : Z) (y Y0 Y1 : D) (r0 r1 : list D) :
  vec_at (y_ref s) lo = Ok Y0 -> vec_at (table s) lo = Ok r0 ->
  vec_at (y_ref s) hi = Ok Y1 -> vec_at (table s) hi = Ok r1 ->
  forall (n : nat) (i : Z) (row : list D),
    0 <= i ->
    i + Z.of_nat n <= Z.of_nat (length row) ->
    i + Z.of_nat n <= Z.of_nat (length r0) ->
    i + Z.of_nat n <= Z.of_nat (length r1) ->
    exists row',
      fill s lo hi y n i row = Ok row' /\
      length row' = length row /\
      (forall j a b, i <= j < i + Z.of_nat n ->
         vec_at r0 j = Ok a -> vec_at r1 j = Ok b ->
         vec_at row' j = Ok (linear_interpolate Y0 a Y1 b y)) /\
      (forall j, 0 <= j < i -> vec_at row' j = vec_at row j).
Proof.
  intros HY0 Hr0 HY1 Hr1.
  induction n as [ | n IH]; intros i row Hi Hrow H0 H1.
  - exists row. cbn. repeat split; intros; try reflexivity; lia.
  - destruct (vec_at_defined r0 i) as [a Ha]; [lia | ].
    destruct (vec_at_defined r1 i) as [b Hb]; [lia | ].
    cbn [fill]. rewrite HY0, Hr0, HY1, Hr1. cbn [bind]. rewrite Ha, Hb. cbn [bind].
    rewrite vec_set_Ok by lia. cbn [bind].
    set (row1 := list_set row (Z.to_nat i) (linear_interpolate Y0 a Y1 b y)).
    assert (Hlen1 : length row1 = length row) by apply length_list_set.
    destruct (IH (i + 1) row1) as (row' & Hfill & Hlen & Hin & Hout);
      try lia.
    exists row'. repeat split.
    + assumption.
    + congruence.
    + intros j a' b' Hj Ha' Hb'.
      destruct (Z.eq_dec j i) as [-> | Hne].
      * rewrite Hout by lia. unfold row1.
        rewrite vec_at_list_set_same by lia. congruence.
      * apply Hin; try assumption. lia.
    + intros j Hj. rewrite Hout by lia. unfold row1.
      apply vec_at_list_set_other; lia.
Qed.

Lemma fill_length (s : t D) (lo hi : Z) (y : D) (n : nat) :
  forall (i : Z) (row row' : list D),
    fill s lo hi y n i row = Ok row' -> length row' = length row.
Proof.
  induction n as [ | n IH]; intros i row row'.
  - cbn. now intros [= <-].
  - cbn [fill].
    destruct (vec_at (y_ref s) lo) as [x0 | | ]; cbn [bind]; try discriminate.
    destruct (vec_at (table s) lo) as [r0 | | ]; cbn [bind]; try discriminate.
    destruct (vec_at r0 i) as [y0 | | ]; cbn [bind]; try discriminate.
    destruct (vec_at (y_ref s) hi) as [x1 | | ]; cbn [bind]; try discriminate.
    destruct (vec_at (table s) hi) as [r1 | | ]; cbn [bind]; try discriminate.
    destruct (vec_at r1 i) as [y1 | | ]; cbn [bind]; try discriminate.
    unfold vec_set.
    destruct ((i <? 0) || (Z.of_nat (length row) <=? i))%bool;
      cbn [bind]; try discriminate.
    intros H. apply IH in H. now rewrite length_list_set in H.
Qed.

(** A defined synthetic row has [x_len] elements, whatever the table. *)
Lemma interpolated_row_length (s : t D) (lo hi : Z) (y : D) (row : list D) :
  interpolated_y_values_at_x s lo hi y = Ok row ->
  Z.of_nat (length row) = x_len s.
Proof.
  unfold interpolated_y_values_at_x, vec_make.
  destruct (Z.ltb_spec (x_len s) 0); cbn [bind]; [discriminate | ].
  intros Hfill. apply fill_length in Hfill. rewrite Hfill, repeat_length. lia.
Qed.

(** For a well-formed table and two rows of the grid, the synthetic row
    is defined, has [x_len] elements and holds in each column the
    interpolation of the two grid values of that column. *)
Lemma interpolated_row_spec (s : t D) (lo hi : Z) (y Y0 Y1 : D) :
  well_formed s ->
  vec_at (y_ref s) lo = Ok Y0 -> vec_at (y_ref s) hi = Ok Y1 ->
  exists r0 r1 row,
    vec_at (table s) lo = Ok r0 /\ vec_at (table s) hi = Ok r1 /\
    Z.of_nat (length r0) = x_len s /\ Z.of_nat (length r1) = x_len s /\
    interpolated_y_values_at_x s lo hi y = Ok row /\
    Z.of_nat (length row) = x_len s /\
    (forall j a b, vec_at r0 j = Ok a -> vec_at r1 j = Ok b ->
       vec_at row j = Ok (linear_interpolate Y0 a Y1 b y)).
Proof.
  intros [Hrows Hcols Hx Hy] HY0 HY1.
  destruct (vec_at_defined (table s) lo) as [r0 Hr0];
    [apply vec_at_range in HY0; lia | ].
  destruct (vec_at_defined (table s) hi) as [r1 Hr1];
    [apply vec_at_range in HY1; lia | ].
  assert (Hl0 : Z.of_nat (length r0) = x_len s).
  { apply vec_at_Ok in Hr0. destruct Hr0 as [_ Hr0]. apply nth_error_In in Hr0.
    rewrite Forall_forall in Hcols. now apply Hcols. }
  assert (Hl1 : Z.of_nat (length r1) = x_len s).
  { apply vec_at_Ok in Hr1. destruct Hr1 as [_ Hr1]. apply nth_error_In in Hr1.
    rewrite Forall_forall in Hcols. now apply Hcols. }
  assert (Hpos : 0 <= x_len s) by lia.
  unfold interpolated_y_values_at_x, vec_make.
  destruct (Z.ltb_spec (x_len s) 0); [lia | ]. cbn [bind].
  destruct (fill_spec s lo hi y Y0 Y1 r0 r1 HY0 Hr0 HY1 Hr1
              (Z.to_nat (x_len s)) 0 (repeat nzero (Z.to_nat (x_len s))))
    as (row & Hfill & Hlen & Hin & _); try rewrite repeat_length; try lia.
  exists r0, r1, row. repeat split; try assumption.
  - rewrite Hlen, repeat_length. lia.
  - intros j a b Ha Hb. apply Hin; try assumption.
    apply vec_at_range in Ha. lia.
Qed.

End SyntheticRow.

(** ** The three ways through [find] *)

Section FindPaths.
Context {D : Type} {N : Number D}.

Import InterpolableLUT.

Lemma find_y_none (s : t D) (x y : D) (l u : Z) :
  find_nearest_indexes (y_ref s) (y_len s) y 0 0 = Ok (false, l, u) ->
  find s x y = Ok x.
Proof. intros H. unfold find. rewrite H. reflexivity. Qed.

Lemma find_x_none (s : t D) (x y : D) (lo hi l u : Z) (row : list D) :
  find_nearest_indexes (y_ref s) (y_len s) y 0 0 = Ok (true, lo, hi) ->
  interpolated_y_values_at_x s lo hi y = Ok row ->
  find_nearest_indexes row (x_len s) x 0 0 = Ok (false, l, u) ->
  find s x y = Ok x.
Proof.
  intros Hy Hrow Hx. unfold find. rewrite Hy. cbn [bind].
  rewrite Hrow. cbn [bind]. rewrite Hx. reflexivity.
Qed.

Lemma find_x_some (s : t D) (x y : D) (lo hi lo2 hi2 : Z) (row : list D)
    (a b c d : D) :
  find_nearest_indexes (y_ref s) (y_len s) y 0 0 = Ok (true, lo, hi) ->
  interpolated_y_values_at_x s lo hi y = Ok row ->
  find_nearest_indexes row (x_len s) x 0 0 = Ok (true, lo2, hi2) ->
  vec_at row lo2 = Ok a -> vec_at (x_ref s) lo2 = Ok b ->
  vec_at row hi2 = Ok c -> vec_at (x_ref s) hi2 = Ok d ->
  find s x y = Ok (linear_interpolate a b c d x).
Proof.
  intros Hy Hrow Hx Ha Hb Hc Hd. unfold find. rewrite Hy. cbn [bind].
  rewrite Hrow. cbn [bind]. rewrite Hx. cbn [bind].
  rewrite Ha, Hb, Hc, Hd. reflexivity.
Qed.

(** The y-bracket search of a well-formed table is defined, and a bracket
    it finds gives a defined synthetic row. *)
Lemma find_y_search (s : t D) (y : D) :
  well_formed s ->
  (exists lo Y0 Y1 row,
      find_nearest_indexes (y_ref s) (y_len s) y 0 0 = Ok (true, lo, lo + 1) /\
      0 <= lo <= y_len s - 2 /\
      is_bracket (y_ref s) y lo = true /\
      (forall j, 0 <= j < lo -> is_bracket (y_ref s) y j = false) /\
      vec_at (y_ref s) lo = Ok Y0 /\ vec_at (y_ref s) (lo + 1) = Ok Y1 /\
      interpolated_y_values_at_x s lo (lo + 1) y = Ok row /\
      Z.of_nat (length row) = x_len s)
  \/ ((forall lo, 0 <= lo <= y_len s - 2 -> is_bracket (y_ref s) y lo = false) /\
      find_nearest_indexes (y_ref s) (y_len s) y 0 0 = Ok (false, 0, 0)).
Proof.
  intros Hwf.
  destruct (find_nearest_indexes_spec (y_ref s) (y_len s) y 0 0)
    as [(lo & Hlo & Hb & Hfirst & Hs) | Hnone];
    [rewrite (wf_y_ref s Hwf); lia | | right; assumption].
  left. pose proof Hb as Hb'.
  apply is_bracket_true in Hb' as (Y0 & Y1 & HY0 & HY1 & _).
  destruct (interpolated_row_spec s lo (lo + 1) y Y0 Y1 Hwf HY0 HY1)
    as (r0 & r1 & row & _ & _ & _ & _ & Hrow & Hlen & _).
  exists lo, Y0, Y1, row. repeat split; try assumption; lia.
Qed.

(** On a well-formed table [find] is defined: it neither reads outside
    a vector nor throws. *)
Lemma find_total (s : t D) (x y : D) :
  well_formed s -> exists r, find s x y = Ok r.
Proof.
  intros Hwf.
  destruct (find_y_search s y Hwf)
    as [(lo & Y0 & Y1 & row & Hy & Hlo & _ & _ & _ & _ & Hrow & Hlen) | [_ Hy]].
  - destruct (find_nearest_indexes_spec row (x_len s) x 0 0)
      as [(lo2 & Hlo2 & Hb & _ & Hx) | [_ Hx]]; [lia | | ].
    + apply is_bracket_true in Hb as (a & c & Ha & Hc & _).
      destruct (vec_at_defined (x_ref s) lo2) as [b Hb];
        [rewrite (wf_x_ref s Hwf); lia | ].
      destruct (vec_at_defined (x_ref s) (lo2 + 1)) as [d Hd];
        [rewrite (wf_x_ref s Hwf); lia | ].
      eexists. eapply find_x_some; eassumption.
    + exists x. eapply find_x_none; eassumption.
  - exists x. eapply find_y_none; eassumption.
Qed.

End FindPaths.

(** ** The synthetic row of a sorted Y reference *)

Section SortedReference.
Context {D : Type} {N : Number D} {L : OrderLaws D}.

Import InterpolableLUT.

Lemma synthetic_row_found (s : t D) (y : D) (lo hi : Z) (row : list D) :
  find_nearest_indexes (y_ref s) (y_len s) y 0 0 = Ok (true, lo, hi) ->
  interpolated_y_values_at_x s lo hi y = Ok row ->
  synthetic_row s y = Ok (Some row).
Proof. intros Hy Hrow. unfold synthetic_row. rewrite Hy. cbn. now rewrite Hrow. Qed.

Lemma row_of_table (s : t D) (k : Z) (r : list D) (P : list D -> Prop) :
  Forall P (table s) -> vec_at (table s) k = Ok r -> P r.
Proof.
  intros HP Hr. apply vec_at_Ok in Hr as [_ Hr]. apply nth_error_In in Hr.
  rewrite Forall_forall in HP. now apply HP.
Qed.

(** The y-bracket of a sorted Y reference is the one the search returns;
    the synthetic row it gives holds in each column the interpolation of
    the two grid values of that column. *)
Lemma synthetic_row_at (s : t D) (y : D) (lo : Z) :
  well_formed s -> ascending (y_ref s) = true ->
  is_bracket (y_ref s) y lo = true ->
  exists Y0 Y1 r0 r1 row,
    vec_at (y_ref s) lo = Ok Y0 /\ vec_at (y_ref s) (lo + 1) = Ok Y1 /\
    (Y0 <=? y)%num = true /\ (y <? Y1)%num = true /\
    vec_at (table s) lo = Ok r0 /\ vec_at (table s) (lo + 1) = Ok r1 /\
    Z.of_nat (length r0) = x_len s /\ Z.of_nat (length r1) = x_len s /\
    find_nearest_indexes (y_ref s) (y_len s) y 0 0 = Ok (true, lo, lo + 1) /\
    interpolated_y_values_at_x s lo (lo + 1) y = Ok row /\
    Z.of_nat (length row) = x_len s /\
    (forall j a b, vec_at r0 j = Ok a -> vec_at r1 j = Ok b ->
       vec_at row j = Ok (linear_interpolate Y0 a Y1 b y)).
Proof.
  intros Hwf Hs Hb. pose proof Hb as Hb'.
  apply is_bracket_true in Hb' as (Y0 & Y1 & HY0 & HY1 & Hle & Hlt).
  destruct (interpolated_row_spec s lo (lo + 1) y Y0 Y1 Hwf HY0 HY1)
    as (r0 & r1 & row & Hr0 & Hr1 & Hl0 & Hl1 & Hrow & Hlen & Hcol).
  exists Y0, Y1, r0, r1, row. repeat split; try assumption.
  apply find_nearest_indexes_at; try assumption.
  - rewrite (wf_y_ref s Hwf). lia.
  - apply vec_at_range in HY0, HY1. rewrite (wf_y_ref s Hwf) in *. lia.
Qed.

(** Outside the range of an ascending row, [find] is the identity. *)
Lemma find_identity_outside (s : t D) (x y : D) (lo hi : Z) (row : list D) :
  find_nearest_indexes (y_ref s) (y_len s) y 0 0 = Ok (true, lo, hi) ->
  interpolated_y_values_at_x s lo hi y = Ok row ->
  ascending row = true -> in_range row x = false ->
  find s x y = Ok x.
Proof.
  intros Hfind Hrow Hasc Hout.
  pose proof (interpolated_row_length s lo hi y row Hrow) as Hlen.
  eapply find_x_none; try eassumption.
  apply find_nearest_indexes_none; [lia | ].
  intros l. destruct (is_bracket row x l) eqn:Hb; [ | reflexivity].
  apply (bracket_in_range row x l Hasc) in Hb. congruence.
Qed.

End SortedReference.

(** ** The two classes *)

Section TwoClasses.
Context {D : Type} {N : Number D}.

Lemma find_nearest_indexes_same (list : list D) (list_len : Z) (v : D) (l0 u0 : Z) :
  InterpolateLUT.find_nearest_indexes list list_len v l0 u0 =
  InterpolableLUT.find_nearest_indexes list list_len v l0 u0.
Proof. reflexivity. Qed.

Lemma linear_interpolate_same (x0 y0 x1 y1 x : D) :
  InterpolateLUT.linear_interpolate x0 y0 x1 y1 x =
  InterpolableLUT.linear_interpolate x0 y0 x1 y1 x.
Proof. reflexivity. Qed.

Ltac step_bind :=
  match goal with
  | |- bind ?m _ = bind ?m' _ =>
      change m' with m; destruct m; cbn [bind]; try reflexivity
  end.

Lemma fill_same (tb : list (list D)) (xr yr : list D) (xl yl : Z)
    (lo hi : Z) (y : D) (n : nat) (i : Z) (row : list D) :
  InterpolateLUT.fill (InterpolateLUT.make tb xr yr xl yl) lo hi y n i row =
  InterpolableLUT.fill (InterpolableLUT.make tb xr yr xl yl) lo hi y n i row.
Proof.
  revert i row. induction n as [ | n IH]; intros i row; [reflexivity | ].
  cbn [InterpolateLUT.fill InterpolableLUT.fill
       InterpolateLUT.y_ref InterpolableLUT.y_ref
       InterpolateLUT.table InterpolableLUT.table].
  do 7 step_bind. apply IH.
Qed.

Lemma find_same (tb : list (list D)) (xr yr : list D) (xl yl : Z) (x y : D) :
  InterpolableLUT.find (InterpolableLUT.make tb xr yr xl yl) x y =
  InterpolateLUT.find (InterpolateLUT.make tb xr yr xl yl) x y.
Proof.
  unfold InterpolableLUT.find, InterpolateLUT.find,
    InterpolableLUT.interpolated_y_values_at_x,
    InterpolateLUT.interpolated_y_values_at_x.
  cbn [InterpolateLUT.y_ref InterpolableLUT.y_ref
       InterpolateLUT.y_len InterpolableLUT.y_len
       InterpolateLUT.x_len InterpolableLUT.x_len
       InterpolateLUT.x_ref InterpolableLUT.x_ref].
  step_bind.
  destruct a as [[found_y lo] hi]. destruct found_y; [ | reflexivity].
  destruct (vec_make xl) as [row0 | e | ]; cbn [bind]; try reflexivity.
  rewrite fill_same. reflexivity.
Qed.

End TwoClasses.

(** ** The invocations of [linear_interpolate] *)

Section Invocations.
Context {D : Type} {N : Number D}.

Import InterpolableLUT.

Lemma fill_log_fill (s : t D) (lo hi : Z) (y : D) (n : nat) :
  forall (i : Z) (row : list D) (log : list (D * D)) row' log',
    fill_log s lo hi y n i row log = Ok (row', log') ->
    fill s lo hi y n i row = Ok row' /\
    forall c, In c log' ->
      In c log \/
      (vec_at (y_ref s) lo = Ok (fst c) /\ vec_at (y_ref s) hi = Ok (snd c)).
Proof.
  induction n as [ | n IH]; intros i row log row' log'.
  - cbn. intros [= <- <-]. split; [reflexivity | auto].
  - cbn [fill_log fill].
    destruct (vec_at (y_ref s) lo) as [x0 | | ]; cbn [bind]; try discriminate.
    destruct (vec_at (table s) lo) as [r0 | | ]; cbn [bind]; try discriminate.
    destruct (vec_at r0 i) as [y0 | | ]; cbn [bind]; try discriminate.
    destruct (vec_at (y_ref s) hi) as [x1 | | ]; cbn [bind]; try discriminate.
    destruct (vec_at (table s) hi) as [r1 | | ]; cbn [bind]; try discriminate.
    destruct (vec_at r1 i) as [y1 | | ]; cbn [bind]; try discriminate.
    destruct (vec_set row i _) as [row1 | | ]; cbn [bind]; try discriminate.
    intros H. apply IH in H as [Hfill Hlog]. split; [assumption | ].
    intros c Hc. apply Hlog in Hc as [Hc | Hc]; [ | now right].
    apply in_app_or in Hc as [Hc | [<- | []]]; [now left | right].
    split; reflexivity.
Qed.

Lemma fill_fill_log (s : t D) (lo hi : Z) (y : D) (n : nat) :
  forall (i : Z) (row : list D) (log : list (D * D)) row',
    fill s lo hi y n i row = Ok row' ->
    exists log', fill_log s lo hi y n i row log = Ok (row', log').
Proof.
  induction n as [ | n IH]; intros i row log row'.
  - cbn. intros [= <-]. now exists log.
  - cbn [fill_log fill].
    destruct (vec_at (y_ref s) lo) as [x0 | | ]; cbn [bind]; try discriminate.
    destruct (vec_at (table s) lo) as [r0 | | ]; cbn [bind]; try discriminate.
    destruct (vec_at r0 i) as [y0 | | ]; cbn [bind]; try discriminate.
    destruct (vec_at (y_ref s) hi) as [x1 | | ]; cbn [bind]; try discriminate.
    destruct (vec_at (table s) hi) as [r1 | | ]; cbn [bind]; try discriminate.
    destruct (vec_at r1 i) as [y1 | | ]; cbn [bind]; try discriminate.
    destruct (vec_set row i _) as [row1 | | ]; cbn [bind]; try discriminate.
    apply IH.
Qed.

(** The log is that of the run of [find]: erasing it gives [find]. *)
Lemma find_log_find (s : t D) (x y r : D) (log : list (D * D)) :
  find_log s x y = Ok (r, log) -> find s x y = Ok r.
Proof.
  unfold find_log, find, interpolated_y_values_at_x.
  destruct (find_nearest_indexes (y_ref s) (y_len s) y 0 0)
    as [[[found_y lo] hi] | | ]; cbn [bind]; try discriminate.
  destruct found_y; [ | now intros [= <- _]].
  destruct (vec_make (x_len s)) as [row0 | | ]; cbn [bind]; try discriminate.
  destruct (fill_log s lo hi y (Z.to_nat (x_len s)) 0 row0 [])
    as [[row log0] | | ] eqn:Hfill; cbn [bind]; try discriminate.
  apply fill_log_fill in Hfill as [-> _]. cbn [bind].
  destruct (find_nearest_indexes row (x_len s) x 0 0)
    as [[[found_x lo2] hi2] | | ]; cbn [bind]; try discriminate.
  destruct found_x; [ | now intros [= <- _]].
  destruct (vec_at row lo2) as [a | | ]; cbn [bind]; try discriminate.
  destruct (vec_at (x_ref s) lo2) as [b | | ]; cbn [bind]; try discriminate.
  destruct (vec_at row hi2) as [c | | ]; cbn [bind]; try discriminate.
  destruct (vec_at (x_ref s) hi2) as [d | | ]; cbn [bind]; try discriminate.
  now intros [= <- _].
Qed.

Lemma find_find_log (s : t D) (x y r : D) :
  find s x y = Ok r -> exists log, find_log s x y = Ok (r, log).
Proof.
  unfold find_log, find, interpolated_y_values_at_x.
  destruct (find_nearest_indexes (y_ref s) (y_len s) y 0 0)
    as [[[found_y lo] hi] | | ]; cbn [bind]; try discriminate.
  destruct found_y; [ | intros [= <-]; now eexists].
  destruct (vec_make (x_len s)) as [row0 | | ]; cbn [bind]; try discriminate.
  destruct (fill s lo hi y (Z.to_nat (x_len s)) 0 row0)
    as [row | | ] eqn:Hfill; cbn [bind]; try discriminate.
  apply (fill_fill_log s lo hi y _ 0 row0 []) in Hfill as [log0 ->]. cbn [bind].
  destruct (find_nearest_indexes row (x_len s) x 0 0)
    as [[[found_x lo2] hi2] | | ]; cbn [bind]; try discriminate.
  destruct found_x; [ | intros [= <-]; now eexists].
  destruct (vec_at row lo2) as [a | | ]; cbn [bind]; try discriminate.
  destruct (vec_at (x_ref s) lo2) as [b | | ]; cbn [bind]; try discriminate.
  destruct (vec_at row hi2) as [c | | ]; cbn [bind]; try discriminate.
  destruct (vec_at (x_ref s) hi2) as [d | | ]; cbn [bind]; try discriminate.
  intros [= <-]. now eexists.
Qed.

Context {L : OrderLaws D}.

Lemma bracket_endpoints (l : list D) (v : D) (lo : Z) (a b : D) :
  is_bracket l v lo = true ->
  vec_at l lo = Ok a -> vec_at l (lo + 1) = Ok b -> (a <? b)%num = true.
Proof.
  intros H Ha Hb. apply is_bracket_true in H as (a' & b' & Ha' & Hb' & Hle & Hlt).
  assert (a' = a) by congruence. assert (b' = b) by congruence. subst.
  now apply nle_nlt_trans with v.
Qed.

(** Every invocation of [linear_interpolate] made by [find] has
    [x0 < x1], whatever the table. *)
Lemma find_log_strict (s : t D) (x y r : D) (log : list (D * D)) :
  find_log s x y = Ok (r, log) ->
  Forall (fun c => (fst c <? snd c)%num = true) log.
Proof.
  unfold find_log.
  destruct (find_nearest_indexes (y_ref s) (y_len s) y 0 0)
    as [[[found_y lo] hi] | | ] eqn:Hy; cbn [bind]; try discriminate.
  destruct found_y; [ | intros [= _ <-]; constructor].
  apply find_nearest_indexes_found in Hy as (-> & _ & Hby).
  destruct (vec_make (x_len s)) as [row0 | | ]; cbn [bind]; try discriminate.
  destruct (fill_log s lo (lo + 1) y (Z.to_nat (x_len s)) 0 row0 [])
    as [[row log0] | | ] eqn:Hfill; cbn [bind]; try discriminate.
  apply fill_log_fill in Hfill as [_ Hlog].
  assert (Hlog0 : Forall (fun c => (fst c <? snd c)%num = true) log0).
  { apply Forall_forall. intros c Hc.
    apply Hlog in Hc as [[] | [H0 H1]].
    now apply (bracket_endpoints (y_ref s) y lo). }
  destruct (find_nearest_indexes row (x_len s) x 0 0)
    as [[[found_x lo2] hi2] | | ] eqn:Hx; cbn [bind]; try discriminate.
  destruct found_x; [ | now intros [= _ <-]].
  apply find_nearest_indexes_found in Hx as (-> & _ & Hbx).
  destruct (vec_at row lo2) as [a | | ] eqn:Ha; cbn [bind]; try discriminate.
  destruct (vec_at (x_ref s) lo2) as [b | | ]; cbn [bind]; try discriminate.
  destruct (vec_at row (lo2 + 1)) as [c | | ] eqn:Hc; cbn [bind]; try discriminate.
  destruct (vec_at (x_ref s) (lo2 + 1)) as [d | | ]; cbn [bind]; try discriminate.
  intros [= _ <-]. apply Forall_app. split; [assumption | ].
  constructor; [ | constructor]. cbn [fst snd].
  now apply (bracket_endpoints row x lo2).
Qed.

End Invocations.

(** ** Properties of [find] that hold in every arithmetic *)

Section ControlFlow.
Context {D : Type} {N : Number D}.

Import InterpolableLUT.

(** C4: the bracket search scans from index 0 and returns the lowest
    index [lo] of [0 .. list_len-2] with [list[lo] <= v] and
    [list[lo+1] > v], together with [lo + 1]; it succeeds exactly when
    such an index exists, and otherwise returns false and leaves its
    out-parameters as they were.  The last element is never a lower
    bound. *)
Theorem find_nearest_indexes_first_bracket
    (list : list D) (list_len : Z) (v : D) (l0 u0 : Z) :
  list_len <= Z.of_nat (length list) ->
  (exists lo, 0 <= lo <= list_len - 2 /\ is_bracket list v lo = true /\
              (forall j, 0 <= j < lo -> is_bracket list v j = false) /\
              find_nearest_indexes list list_len v l0 u0 = Ok (true, lo, lo + 1))
  \/ ((forall lo, 0 <= lo <= list_len - 2 -> is_bracket list v lo = false) /\
      find_nearest_indexes list list_len v l0 u0 = Ok (false, l0, u0)).
Proof. apply find_nearest_indexes_spec. Qed.

(** C10, amended: a table with [y_len < 2], [y_len] above [INT_MIN],
    returns [x_input] for all inputs; and so does a table with [x_len] 0
    or 1 whose y-bracket search succeeds, when the two bracketing grid
    rows hold the [x_len] values that the first pass reads: a search over
    fewer than two elements makes no iteration. *)
Theorem find_short_table (s : t D) (x_input y_input : D) :
  (- 2 ^ 31 < y_len s < 2 -> find s x_input y_input = Ok x_input) /\
  (forall lo hi,
     find_nearest_indexes (y_ref s) (y_len s) y_input 0 0 = Ok (true, lo, hi) ->
     0 <= x_len s < 2 ->
     (forall i, 0 <= i < x_len s ->
        exists r0 r1 a b,
          vec_at (table s) lo = Ok r0 /\ vec_at r0 i = Ok a /\
          vec_at (table s) hi = Ok r1 /\ vec_at r1 i = Ok b) ->
     find s x_input y_input = Ok x_input).
Proof.
  split.
  - intros H. apply find_y_none with 0 0.
    apply find_nearest_indexes_short. lia.
  - intros lo hi Hy Hx Hgrid.
    assert (Hrow : exists row, interpolated_y_values_at_x s lo hi y_input = Ok row).
    { unfold interpolated_y_values_at_x, vec_make.
      destruct (Z.ltb_spec (x_len s) 0); [lia | ]. cbn [bind].
      destruct (Z.eq_dec (x_len s) 0) as [E | Hne].
      - rewrite E. now exists [].
      - assert (E : x_len s = 1) by lia. rewrite E.
        destruct (Hgrid 0 ltac:(lia)) as (r0 & r1 & a & b & Hr0 & Ha & Hr1 & Hb).
        pose proof Hy as Hy'.
        apply find_nearest_indexes_found in Hy' as (-> & _ & Hby).
        apply is_bracket_true in Hby as (Y0 & Y1 & HY0 & HY1 & _).
        apply vec_at_range in Ha, Hb.
        change (Z.to_nat 1) with 1%nat.
        destruct (fill_spec s lo (lo + 1) y_input Y0 Y1 r0 r1 HY0 Hr0 HY1 Hr1
                    1%nat 0 (repeat nzero 1))
          as (row & Hfill & _);
          [lia | cbn; lia | lia | lia | now exists row]. }
    destruct Hrow as [row Hrow].
    eapply find_x_none; try eassumption.
    apply find_nearest_indexes_short. lia.
Qed.

(** C7: on a table holding [y_len] rows, row access with an index
    [>= y_len] throws [std::out_of_range], and row access with an index
    of [0 .. y_len-1] returns the row given to the constructor. *)
Theorem operator_subscript_bounds
    (tb : list (list D)) (xr yr : list D) (xl yl : Z) (row : Z) :
  Z.of_nat (length tb) = yl -> yl < 2 ^ 31 -> 0 <= row < 2 ^ 64 ->
  (yl <= row ->
   operator_subscript (make tb xr yr xl yl) row = Throw out_of_range) /\
  (0 <= row <= yl - 1 ->
   exists r, nth_error tb (Z.to_nat row) = Some r /\
             operator_subscript (make tb xr yr xl yl) row = Ok r).
Proof.
  intros Hlen Hint Hrow.
  assert (Hsz : to_size_t yl = yl).
  { unfold to_size_t. apply Z.mod_small. lia. }
  unfold operator_subscript. cbn [y_len table]. rewrite Hsz. split; intros H.
  - destruct (Z.leb_spec yl row); [reflexivity | lia].
  - destruct (Z.leb_spec yl row); [lia | ].
    destruct (vec_at_defined tb row) as [r Hr]; [lia | ].
    exists r. split; [ | assumption]. now apply vec_at_Ok in Hr.
Qed.

(** C8: the [find] of the two classes return the same result for every
    table, reference sequences, lengths and inputs. *)
Theorem find_variants_agree
    (tb : list (list D)) (xr yr : list D) (xl yl : Z) (x_input y_input : D) :
  InterpolableLUT.find (InterpolableLUT.make tb xr yr xl yl) x_input y_input =
  InterpolateLUT.find (InterpolateLUT.make tb xr yr xl yl) x_input y_input.
Proof. apply find_same. Qed.

Context {L : OrderLaws D}.

(** C3: when the y-bracket search succeeds and [x_input] is outside the
    synthetic row computed at [y_input], [find] returns [x_input]
    unchanged.  Outside means that the x-bracket search over the
    synthetic row finds no bracket; for a synthetic row sorted ascending
    that is the case of every [x_input] below its first element, or at
    or above its last one. *)
Theorem find_outside_synthetic_row
    (s : t D) (x_input y_input : D) (lo hi : Z) (row : list D) :
  find_nearest_indexes (y_ref s) (y_len s) y_input 0 0 = Ok (true, lo, hi) ->
  interpolated_y_values_at_x s lo hi y_input = Ok row ->
  (exists l u,
     find_nearest_indexes row (x_len s) x_input 0 0 = Ok (false, l, u)) \/
  (ascending row = true /\
   ((exists a, vec_at row 0 = Ok a /\ (x_input <? a)%num = true) \/
    (exists b, vec_at row (x_len s - 1) = Ok b /\ (b <=? x_input)%num = true))) ->
  find s x_input y_input = Ok x_input.
Proof.
  intros Hy Hrow Hout.
  pose proof (interpolated_row_length s lo hi y_input row Hrow) as Hlen.
  destruct Hout as [(l & u & Hx) | [Hs Hout]].
  - eapply find_x_none; eassumption.
  - apply (find_x_none s x_input y_input lo hi 0 0 row); try assumption.
    apply find_nearest_indexes_none; [lia | ].
    destruct Hout as [(a & Ha & Hlt) | (b & Hb & Hle)].
    + now apply below_no_bracket with a.
    + apply above_no_bracket with b; try assumption. now rewrite Hlen.
Qed.

(** C1: with the Y reference sorted ascending, a [y_input] below
    [y_ref[0]], or at or above [y_ref[y_len-1]], makes [find] return
    [x_input] unchanged. *)
Theorem find_y_out_of_range (s : t D) (x_input y_input : D) :
  Z.of_nat (length (y_ref s)) = y_len s ->
  ascending (y_ref s) = true ->
  (exists a, vec_at (y_ref s) 0 = Ok a /\ (y_input <? a)%num = true) \/
  (exists b, vec_at (y_ref s) (y_len s - 1) = Ok b /\ (b <=? y_input)%num = true) ->
  find s x_input y_input = Ok x_input.
Proof.
  intros Hlen Hs Hout. apply find_y_none with 0 0.
  apply find_nearest_indexes_none; [lia | ].
  destruct Hout as [(a & Ha & Hlt) | (b & Hb & Hle)].
  - now apply below_no_bracket with a.
  - apply above_no_bracket with b; try assumption. now rewrite Hlen.
Qed.

(** C5, amended: with the Y reference sorted ascending and [y_input]
    strictly between [y_ref[lo]] and [y_ref[lo+1]], [find] brackets
    [y_input] by [lo] and [lo+1], and its synthetic row has [x_len]
    elements, the one of column [i] being the value that the arithmetic of
    the program gives to
    [Grid[lo][i] + (Grid[lo+1][i] - Grid[lo][i]) * (y_input - y_ref[lo])
     / (y_ref[lo+1] - y_ref[lo])]. *)
Theorem synthetic_row_interpolates
    (s : t D) (y_input : D) (lo : Z) (Y0 Y1 : D) :
  well_formed s -> ascending (y_ref s) = true ->
  vec_at (y_ref s) lo = Ok Y0 -> vec_at (y_ref s) (lo + 1) = Ok Y1 ->
  (Y0 <? y_input)%num = true -> (y_input <? Y1)%num = true ->
  exists r0 r1 row,
    vec_at (table s) lo = Ok r0 /\ vec_at (table s) (lo + 1) = Ok r1 /\
    find_nearest_indexes (y_ref s) (y_len s) y_input 0 0 = Ok (true, lo, lo + 1) /\
    interpolated_y_values_at_x s lo (lo + 1) y_input = Ok row /\
    Z.of_nat (length row) = x_len s /\
    forall i, 0 <= i < x_len s ->
      exists a b,
        vec_at r0 i = Ok a /\ vec_at r1 i = Ok b /\
        vec_at row i = Ok (a + (b - a) * (y_input - Y0) / (Y1 - Y0))%num.
Proof.
  intros Hwf Hs HY0 HY1 Hlo Hhi.
  assert (Hb : is_bracket (y_ref s) y_input lo = true).
  { apply is_bracket_true. exists Y0, Y1. repeat split; try assumption.
    now apply nlt_nle. }
  destruct (synthetic_row_at s y_input lo Hwf Hs Hb)
    as (Y0' & Y1' & r0 & r1 & row & HY0' & HY1' & _ & _ & Hr0 & Hr1 & Hl0 & Hl1
        & Hfind & Hrow & Hlen & Hcol).
  assert (Y0' = Y0) by congruence. assert (Y1' = Y1) by congruence. subst.
  exists r0, r1, row. repeat split; try assumption.
  intros i Hi.
  destruct (vec_at_defined r0 i) as [a Ha]; [lia | ].
  destruct (vec_at_defined r1 i) as [b Hb']; [lia | ].
  exists a, b. repeat split; try assumption.
  exact (Hcol i a b Ha Hb').
Qed.


End ControlFlow.

(** Runs on the table of [example()], in binary64. *)

Lemma find_nearest_indexes_first_bracket_witness :
  12 <= Z.of_nat (length temp_points) /\
  ((exists lo, 0 <= lo <= 12 - 2 /\ is_bracket temp_points 37%float lo = true /\
       (forall j, 0 <= j < lo -> is_bracket temp_points 37%float j = false) /\
       InterpolableLUT.find_nearest_indexes temp_points 12 37%float 0 0
       = Ok (true, lo, lo + 1))
   \/ ((forall lo, 0 <= lo <= 12 - 2 -> is_bracket temp_points 37%float lo = false) /\
       InterpolableLUT.find_nearest_indexes temp_points 12 37%float 0 0
       = Ok (false, 0, 0))).
Proof.
  split; [cbn; lia | ].
  apply (find_nearest_indexes_first_bracket temp_points 12 37%float 0 0).
  cbn; lia.
Defined.

Lemma find_outside_synthetic_row_witness :
  exists row,
    (InterpolableLUT.find_nearest_indexes
       (InterpolableLUT.y_ref lutPh) (InterpolableLUT.y_len lutPh) 37%float 0 0
     = Ok (true, 7, 8) /\
     InterpolableLUT.interpolated_y_values_at_x lutPh 7 8 37%float = Ok row /\
     ascending row = true /\
     exists b, vec_at row (InterpolableLUT.x_len lutPh - 1) = Ok b /\
               (b <=? 20)%float = true) /\
    InterpolableLUT.find lutPh 20%float 37%float = Ok 20%float.
Proof.
  eexists. split.
  - split; [reflexivity | ]. split; [reflexivity | ]. split; [reflexivity | ].
    eexists. split; reflexivity.
  - eapply (find_outside_synthetic_row lutPh 20%float 37%float 7 8);
      [reflexivity | reflexivity | ].
    right. split; [reflexivity | ]. right. eexists. split; reflexivity.
Defined.

Lemma lutPh_well_formed : InterpolableLUT.well_formed lutPh.
Proof. constructor; [reflexivity | repeat constructor | reflexivity | reflexivity]. Qed.

Lemma find_short_table_witness :
  let one_row :=
    InterpolableLUT.make [[1; 2]]%float [10; 20]%float [0]%float 2 1 in
  let one_column :=
    InterpolableLUT.make [[1; 2]; [3; 4]]%float [10; 20]%float [0; 1]%float
      1 2 in
  (- 2 ^ 31 < InterpolableLUT.y_len one_row < 2 /\
   InterpolableLUT.find one_row 1.5%float 0%float = Ok 1.5%float) /\
  (InterpolableLUT.find_nearest_indexes
     (InterpolableLUT.y_ref one_column) (InterpolableLUT.y_len one_column)
     0.5%float 0 0 = Ok (true, 0, 1) /\
   0 <= InterpolableLUT.x_len one_column < 2 /\
   InterpolableLUT.find one_column 1%float 0.5%float = Ok 1%float).
Proof.
  intros one_row one_column.
  assert (H1 : - 2 ^ 31 < InterpolableLUT.y_len one_row < 2) by (cbn; lia).
  assert (H2 : 0 <= InterpolableLUT.x_len one_column < 2) by (cbn; lia).
  split; [split; [exact H1 | ] | split; [reflexivity | split; [exact H2 | ]]].
  - exact (proj1 (find_short_table one_row 1.5%float 0%float) H1).
  - apply (proj2 (find_short_table one_column 1%float 0.5%float) 0 1);
      [reflexivity | exact H2 | ].
    intros i Hi. assert (i = 0) by (cbn in Hi; lia). subst i.
    exists [1; 2]%float, [3; 4]%float, 1%float, 3%float.
    repeat split; reflexivity.
Defined.

(** C10 as stated fails for a negative [x_len]: on [table_2x2] given with
    [x_len = -1] the y-bracket search succeeds at [y_input = 0.5], and
    the construction of the synthetic row throws [std::length_error]. *)
Lemma negative_x_len_throws :
  InterpolableLUT.x_len table_negative_x_len < 2 /\
  InterpolableLUT.find_nearest_indexes
    (InterpolableLUT.y_ref table_negative_x_len)
    (InterpolableLUT.y_len table_negative_x_len) 0.5%float 0 0
  = Ok (true, 0, 1) /\
  InterpolableLUT.find table_negative_x_len 1%float 0.5%float
  = Throw length_error.
Proof. split; [reflexivity | split; reflexivity]. Qed.

Lemma operator_subscript_bounds_witness :
  (Z.of_nat (length ph_values) = 12 /\ 12 < 2 ^ 31 /\ 0 <= 12 < 2 ^ 64) /\
  InterpolableLUT.operator_subscript lutPh 12 = Throw out_of_range /\
  InterpolableLUT.operator_subscript lutPh 3 =
  Ok [1.67; 4.00; 6.90; 7.04; 9.27; 10.12; 12.83]%float.
Proof.
  assert (H1 : Z.of_nat (length ph_values) = 12) by reflexivity.
  assert (H2 : 12 < 2 ^ 31) by reflexivity.
  split; [repeat split; try assumption; cbn; lia | ]. split.
  - apply (operator_subscript_bounds ph_values ph_values_at_25 temp_points
             7 12 12 H1 H2); lia.
  - destruct (operator_subscript_bounds ph_values ph_values_at_25 temp_points
                7 12 3 H1 H2) as [_ H]; [lia | ].
    destruct H as (r & Hr & Hget); [lia | ].
    injection Hr as <-. exact Hget.
Defined.

Lemma find_y_out_of_range_witness :
  Z.of_nat (length (InterpolableLUT.y_ref lutPh)) = InterpolableLUT.y_len lutPh /\
  ascending (InterpolableLUT.y_ref lutPh) = true /\
  (vec_at (InterpolableLUT.y_ref lutPh) (InterpolableLUT.y_len lutPh - 1)
   = Ok 55%float /\ (55 <=? 55)%float = true) /\
  InterpolableLUT.find lutPh 7.01%float 55%float = Ok 7.01%float.
Proof.
  split; [reflexivity | ]. split; [reflexivity | ].
  split; [split; reflexivity | ].
  apply (find_y_out_of_range lutPh 7.01%float 55%float);
    [reflexivity | reflexivity | ].
  right. exists 55%float. split; reflexivity.
Defined.

(** ** Properties of [find] in binary64 *)

Section Binary64.

Import InterpolableLUT.
Local Open Scope float_scope.

(** At its left endpoint the interpolation returns a value equal to
    [y0]: every operation of the formula is exact there, provided
    [y1 - y0] does not overflow. *)
Lemma linear_interpolate_left_binary64 (x0 y0 x1 y1 x : float) :
  (x =? x0) = true -> is_finite x0 = true -> (x0 <? x1) = true ->
  is_finite (y1 - y0) = true ->
  (linear_interpolate x0 y0 x1 y1 x =? y0) = true.
Proof.
  intros Hx F0 Hlt Fd. unfold linear_interpolate.
  cbn [nadd nsub nmul ndiv binary64].
  rewrite is_finite_spec in F0, Fd. rewrite sub_spec in Fd.
  rewrite FloatAxioms.eqb_spec in Hx. rewrite FloatAxioms.ltb_spec in Hlt.
  rewrite FloatAxioms.eqb_spec, add_spec, div_spec, mul_spec, !sub_spec.
  apply (SFinterpolate_left prec emax eq_refl); try assumption;
    apply Prim2SF_valid.
Qed.

Lemma finite_differences_at (r0 r1 : list float) (i : Z) (a b : float) :
  finite_differences r0 r1 = true ->
  vec_at r0 i = Ok a -> vec_at r1 i = Ok b -> is_finite (b - a) = true.
Proof.
  unfold finite_differences. intros H Ha Hb.
  apply vec_at_Ok in Ha as [Hi Ha]. apply vec_at_Ok in Hb as [_ Hb].
  revert H Ha Hb. generalize (Z.to_nat i). clear i Hi. intros n.
  revert r1 n. induction r0 as [ | a0 r0 IH]; intros r1 n H Ha Hb.
  - destruct n; discriminate.
  - destruct r1 as [ | b0 r1]; [destruct n; discriminate | ].
    cbn in H. apply andb_true_iff in H as [H0 H].
    destruct n as [ | n]; cbn in Ha, Hb.
    + injection Ha as <-. injection Hb as <-. exact H0.
    + exact (IH r1 n H Ha Hb).
Qed.

(** At its left endpoint the interpolation returns a value equal to
    [y0], or a NaN. *)
Lemma linear_interpolate_left_cases (x0 y0 x1 y1 x : float) :
  (x =? x0) = true -> (x0 <? x1) = true ->
  is_nan (linear_interpolate x0 y0 x1 y1 x) = true \/
  (linear_interpolate x0 y0 x1 y1 x =? y0) = true.
Proof.
  intros Hx Hlt. unfold linear_interpolate.
  cbn [nadd nsub nmul ndiv binary64].
  rewrite FloatAxioms.eqb_spec in Hx. rewrite FloatAxioms.ltb_spec in Hlt.
  destruct (SFinterpolate_left_cases prec emax eq_refl
              (Prim2SF x0) (Prim2SF y0) (Prim2SF x1) (Prim2SF y1) (Prim2SF x)
              (Prim2SF_valid x0) (Prim2SF_valid x1) Hx Hlt) as [H | H].
  - left. apply Prim2SF_is_nan.
    now rewrite add_spec, div_spec, mul_spec, !sub_spec.
  - right. now rewrite FloatAxioms.eqb_spec, add_spec, div_spec, mul_spec, !sub_spec.
Qed.

(** On a grid line other than the last one, each element of the
    synthetic row equals the grid value of its column in the grid row of
    that line, or is a NaN; it equals the grid value when [y_ref[k]] and
    the difference to the next grid row are finite. *)
Lemma synthetic_row_on_grid_line
    (s : t float) (y : float) (k : Z) (Yk : float) (rk : list float) :
  well_formed s -> increasing (y_ref s) = true ->
  vec_at (y_ref s) k = Ok Yk -> vec_at (table s) k = Ok rk ->
  (y =? Yk) = true -> (k < y_len s - 1)%Z ->
  exists rk1 row,
    vec_at (table s) (k + 1) = Ok rk1 /\
    find_nearest_indexes (y_ref s) (y_len s) y 0 0 = Ok (true, k, (k + 1)%Z) /\
    interpolated_y_values_at_x s k (k + 1) y = Ok row /\
    Z.of_nat (length row) = x_len s /\
    Z.of_nat (length rk) = x_len s /\
    Z.of_nat (length rk1) = x_len s /\
    (forall i a, vec_at rk i = Ok a ->
       exists b c,
         vec_at rk1 i = Ok b /\ vec_at row i = Ok c /\
         (is_nan c = true \/ (c =? a) = true) /\
         (is_finite Yk = true -> is_finite (b - a) = true -> (c =? a) = true)).
Proof.
  intros Hwf Hinc HYk Hrk Hy Hk.
  pose proof (increasing_ascending _ Hinc) as Hs.
  pose proof (vec_at_range _ _ _ HYk) as Hkr.
  destruct (vec_at_defined (y_ref s) (k + 1)) as [Yk1 HYk1];
    [rewrite (wf_y_ref s Hwf); lia | ].
  pose proof (increasing_adjacent _ _ _ _ Hinc HYk HYk1) as Hlt.
  cbn [nlt binary64] in Hlt.
  assert (Hb : is_bracket (y_ref s) y k = true).
  { apply is_bracket_true. exists Yk, Yk1. repeat split; try assumption;
      cbn [nle nlt binary64].
    - now apply eqb_leb, eqb_sym.
    - destruct (eqb_compat y Yk Yk1 Hy) as (_ & _ & E & _). congruence. }
  destruct (synthetic_row_at s y k Hwf Hs Hb)
    as (Y0 & Y1 & r0 & r1 & row & HY0 & HY1 & _ & _ & Hr0 & Hr1 & Hl0 & Hl1
        & Hfind & Hrow & Hlen & Hcol).
  assert (Y0 = Yk) by congruence. assert (Y1 = Yk1) by congruence.
  assert (r0 = rk) by congruence. subst.
  exists r1, row. repeat split; try assumption.
  intros i a Ha.
  destruct (vec_at_defined r1 i) as [b Hb']; [apply vec_at_range in Ha; lia | ].
  exists b, (linear_interpolate Yk a Yk1 b y).
  split; [assumption | ]. split; [now apply Hcol | ]. split.
  - now apply linear_interpolate_left_cases.
  - intros HfY Hf. now apply linear_interpolate_left_binary64.
Qed.

(** C2, amended: with the Y reference and the grid rows strictly
    increasing, at [y_input == y_ref[k]] and [x_input == Grid[k][j]]:
    when [k] is not the last row and [j] is not the last column, [find]
    returns a value equal ([==]) to [x_ref[j]], provided [y_ref[k]] and
    the three differences [Grid[k+1][j] - Grid[k][j]],
    [Grid[k+1][j+1] - Grid[k][j+1]] and [x_ref[j+1] - x_ref[j]] are
    finite; when [k] is the last row or [j] is the last column the
    identity fallback applies and [find] returns [x_input]. *)
Theorem find_grid_point
    (s : t float) (k j : Z) (x_input y_input Yk g Xj : float) (rk : list float) :
  well_formed s -> increasing (y_ref s) = true ->
  Forall (fun r => increasing r = true) (table s) ->
  vec_at (y_ref s) k = Ok Yk -> vec_at (table s) k = Ok rk ->
  vec_at rk j = Ok g -> vec_at (x_ref s) j = Ok Xj ->
  (y_input =? Yk) = true -> (x_input =? g) = true ->
  (forall (rk1 : list float) (g' b b' Xj1 : float),
     vec_at (table s) (k + 1) = Ok rk1 -> vec_at rk (j + 1) = Ok g' ->
     vec_at rk1 j = Ok b -> vec_at rk1 (j + 1) = Ok b' ->
     vec_at (x_ref s) (j + 1) = Ok Xj1 ->
     is_finite Yk = true ->
     is_finite (b - g) = true -> is_finite (b' - g') = true ->
     is_finite (Xj1 - Xj) = true ->
     exists r, find s x_input y_input = Ok r /\ (r =? Xj) = true) /\
  ((k = y_len s - 1)%Z \/ (j = x_len s - 1)%Z ->
   find s x_input y_input = Ok x_input).
Proof.
  intros Hwf Hinc Hrows HYk Hrk Hg HXj Hy Hx.
  pose proof (increasing_ascending _ Hinc) as Hs.
  pose proof (row_of_table s k rk _ Hrows Hrk) as Hrkinc.
  pose proof (increasing_ascending _ Hrkinc) as Hrks.
  pose proof (vec_at_range _ _ _ Hg) as Hjr.
  assert (Hlast : (k = y_len s - 1)%Z -> find s x_input y_input = Ok x_input).
  { intros ->. apply find_y_none with 0%Z 0%Z.
    apply find_nearest_indexes_none; [rewrite (wf_y_ref s Hwf); lia | ].
    apply above_no_bracket with Yk; try assumption.
    - now rewrite (wf_y_ref s Hwf).
    - cbn [nle binary64]. now apply eqb_leb, eqb_sym. }
  (* no bracket of the synthetic row begins before column [j] *)
  assert (Hbelow : forall row,
            Z.of_nat (length rk) = Z.of_nat (length row) ->
            (forall i a, vec_at rk i = Ok a ->
               exists c, vec_at row i = Ok c /\
                         (is_nan c = true \/ (c =? a) = true)) ->
            forall lo, (0 <= lo < j)%Z -> is_bracket row x_input lo = false).
  { intros row Hlen Hcol lo Hlo.
    destruct (vec_at_defined rk (lo + 1)) as [a1 Ha1]; [lia | ].
    destruct (Hcol (lo + 1)%Z a1 Ha1) as (c1 & Hc1 & Hcase).
    unfold is_bracket.
    destruct (vec_at row lo) as [c0 | | ]; try reflexivity.
    rewrite Hc1. apply andb_false_iff. right. cbn [nlt binary64].
    destruct Hcase as [Hnan | Heq].
    - now destruct (nan_compare c1 x_input Hnan) as (_ & _ & -> & _).
    - assert (Hle : (a1 <=? g) = true).
      { destruct (Z.eq_dec (lo + 1) j) as [E | Hne].
        - rewrite E in Ha1. assert (a1 = g) by congruence. subst a1.
          apply eqb_leb. apply eqb_refl_of with x_input. now apply eqb_sym.
        - exact (ascending_le rk (lo + 1) j a1 g Hrks ltac:(lia) Ha1 Hg). }
      destruct (eqb_compat c1 a1 x_input Heq) as (_ & _ & _ & E1 & _).
      destruct (eqb_compat x_input g a1 Hx) as (_ & _ & E2 & _).
      rewrite E1, E2. apply not_true_is_false. intros Hlt.
      pose proof (nlt_not_nle (D := float) g a1 Hlt) as Hn.
      cbn [nle binary64] in Hn. congruence. }
  split.
  - intros rk1 g' b b' Xj1 Hrk1 Hg' Hb Hb' HXj1 HfY Hfj Hfj' HfX.
    assert (Hk : (k < y_len s - 1)%Z).
    { apply vec_at_range in Hrk1. rewrite (wf_rows s Hwf) in Hrk1. lia. }
    destruct (synthetic_row_on_grid_line s y_input k Yk rk
                Hwf Hinc HYk Hrk Hy Hk)
      as (rk1' & row & Hrk1' & Hfind & Hrow & Hlen & Hlenk & Hlenk1 & Hcol).
    assert (rk1' = rk1) by congruence. subst rk1'.
    destruct (Hcol j g Hg) as (b0 & c & Hb0 & Hc & _ & Hcg).
    destruct (Hcol (j + 1)%Z g' Hg') as (b0' & c' & Hb0' & Hc' & _ & Hcg').
    assert (b0 = b) by congruence. assert (b0' = b') by congruence. subst.
    specialize (Hcg HfY Hfj). specialize (Hcg' HfY Hfj').
    pose proof (increasing_adjacent _ _ _ _ Hrkinc Hg Hg') as Hgg.
    cbn [nlt binary64] in Hgg.
    assert (Hxc : (x_input =? c) = true)
      by (apply eqb_trans with g; [assumption | now apply eqb_sym]).
    assert (Hcc : (c <? c') = true).
    { destruct (eqb_compat c g c' Hcg) as (_ & _ & E & _).
      destruct (eqb_compat c' g' g Hcg') as (_ & _ & _ & E' & _).
      congruence. }
    assert (Hbr : is_bracket row x_input j = true).
    { apply is_bracket_true. exists c, c'. repeat split; try assumption;
        cbn [nle nlt binary64].
      - now apply eqb_leb, eqb_sym.
      - destruct (eqb_compat x_input c c' Hxc) as (_ & _ & E & _). congruence. }
    assert (Hx_search :
              find_nearest_indexes row (x_len s) x_input 0 0
              = Ok (true, j, (j + 1)%Z)).
    { destruct (find_nearest_indexes_spec row (x_len s) x_input 0 0)
        as [(lo & Hlo & Hblo & Hfirst & Hfound) | [Hnone _]]; [lia | | ].
      - destruct (Z.lt_trichotomy lo j) as [Hlt | [-> | Hgt]].
        + rewrite (Hbelow row) in Hblo; [discriminate | lia | | lia].
          intros i a Ha. destruct (Hcol i a Ha) as (b1 & c1 & _ & Hc1 & Hcase & _).
          now exists c1.
        + assumption.
        + rewrite Hfirst in Hbr by lia. discriminate.
      - apply vec_at_range in Hc'. rewrite Hnone in Hbr by lia. discriminate. }
    exists (linear_interpolate c Xj c' Xj1 x_input). split.
    + eapply find_x_some; eassumption.
    + apply linear_interpolate_left_binary64; try assumption.
      rewrite (eqb_is_finite c g Hcg).
      apply sub_is_finite in Hfj. tauto.
  - intros [Hk | Hj]; [now apply Hlast | ].
    destruct (Z.eq_dec k (y_len s - 1)) as [Hk | Hk]; [now apply Hlast | ].
    pose proof (vec_at_range _ _ _ HYk) as Hkr.
    rewrite (wf_y_ref s Hwf) in Hkr.
    destruct (synthetic_row_on_grid_line s y_input k Yk rk
                Hwf Hinc HYk Hrk Hy ltac:(lia))
      as (rk1 & row & Hrk1 & Hfind & Hrow & Hlen & Hlenk & Hlenk1 & Hcol).
    eapply find_x_none; try eassumption.
    apply find_nearest_indexes_none; [lia | ].
    intros lo. destruct (is_bracket row x_input lo) eqn:E; [ | reflexivity].
    pose proof E as E'.
    apply is_bracket_true in E' as (c0 & c1 & Hc0 & Hc1 & _).
    apply vec_at_range in Hc0, Hc1.
    rewrite (Hbelow row) in E; [discriminate | lia | | lia].
    intros i a Ha. destruct (Hcol i a Ha) as (b2 & c2 & _ & Hc2 & Hcase & _).
    now exists c2.
Qed.

(** C9: every invocation of [linear_interpolate] made by [find] has
    [x0 < x1] and a divisor [x1 - x0] that, as computed in binary64, is
    greater than zero, hence neither zero nor a NaN, for every table and
    every input; and every defined run of [find] has such a log. *)
Theorem find_never_divides_by_zero (s : t float) (x_input y_input : float) :
  (forall r, find s x_input y_input = Ok r ->
     exists log, find_log s x_input y_input = Ok (r, log)) /\
  (forall r log, find_log s x_input y_input = Ok (r, log) ->
     find s x_input y_input = Ok r /\
     Forall (fun c => (fst c <? snd c) = true /\ (0 <? snd c - fst c) = true)
       log).
Proof.
  split.
  - intros r. apply find_find_log.
  - intros r log H. split; [now apply find_log_find in H | ].
    apply find_log_strict in H.
    eapply Forall_impl; [ | exact H].
    intros [x0 x1] Hlt. cbn [fst snd nlt binary64] in *.
    split; [assumption | now apply sub_positive].
Qed.

(** X6: in binary64, on a grid line [y_input == y_ref[k]] other than the
    last one, the first pass of [find] reproduces the grid row of that
    line: the synthetic row has the length of the grid row and each of
    its elements equals ([==]) the grid value of its column, when
    [y_ref[k]] is finite and the differences to the next grid row are
    finite.  No rounding error enters at a grid line. *)
Theorem synthetic_row_is_grid_row
    (s : t float) (y_input : float) (k : Z) (Yk : float) (rk : list float) :
  well_formed s -> increasing (y_ref s) = true ->
  vec_at (y_ref s) k = Ok Yk -> vec_at (table s) k = Ok rk ->
  (y_input =? Yk) = true -> is_finite Yk = true -> (k < y_len s - 1)%Z ->
  (forall rk1, vec_at (table s) (k + 1) = Ok rk1 ->
               finite_differences rk rk1 = true) ->
  exists row,
    synthetic_row s y_input = Ok (Some row) /\
    length row = length rk /\
    forall i a, vec_at rk i = Ok a ->
      exists c, vec_at row i = Ok c /\ (c =? a) = true.
Proof.
  intros Hwf Hinc HYk Hrk Hy HfY Hk Hfin.
  destruct (synthetic_row_on_grid_line s y_input k Yk rk
              Hwf Hinc HYk Hrk Hy Hk)
    as (rk1 & row & Hrk1 & Hfind & Hrow & Hlen & Hlenk & _ & Hcol).
  exists row. split; [ | split; [lia | ]].
  - exact (synthetic_row_found s y_input k (k + 1) row Hfind Hrow).
  - intros i a Ha. destruct (Hcol i a Ha) as (b & c & Hb & Hc & _ & Hca).
    exists c. split; [assumption | ]. apply Hca; [assumption | ].
    exact (finite_differences_at rk rk1 i a b (Hfin rk1 Hrk1) Ha Hb).
Qed.

End Binary64.

(** ** The interpolation formula without rounding *)

Section Exact.

Import InterpolableLUT.
Local Open Scope Q_scope.

Lemma exact_nle (a b : Q) : (a <=? b)%num = true <-> a <= b.
Proof. apply Qle_bool_iff. Qed.

Lemma exact_nlt (a b : Q) : (a <? b)%num = true <-> a < b.
Proof. apply Qlt_bool_iff. Qed.

Lemma exact_nlt_false (a b : Q) : (a <? b)%num = false <-> b <= a.
Proof.
  rewrite <- not_true_iff_false, exact_nlt. split.
  - apply Qnot_lt_le.
  - apply Qle_not_lt.
Qed.

Lemma linear_interpolate_exact (x0 y0 x1 y1 x : Q) :
  linear_interpolate x0 y0 x1 y1 x = y0 + (y1 - y0) * (x - x0) / (x1 - x0).
Proof. reflexivity. Qed.

(** The interpolation is the convex combination of [y0] and [y1] with
    weight [(x - x0) / (x1 - x0)]. *)
Lemma linear_interpolate_convex (x0 y0 x1 y1 x : Q) :
  x0 < x1 ->
  linear_interpolate x0 y0 x1 y1 x ==
  (1 - (x - x0) / (x1 - x0)) * y0 + (x - x0) / (x1 - x0) * y1.
Proof.
  intros H. rewrite linear_interpolate_exact. field. lra.
Qed.

Lemma weight_bounds (x0 x1 x : Q) :
  x0 < x1 ->
  (x0 <= x -> 0 <= (x - x0) / (x1 - x0)) /\
  (x0 < x -> 0 < (x - x0) / (x1 - x0)) /\
  (x <= x1 -> (x - x0) / (x1 - x0) <= 1) /\
  (x < x1 -> (x - x0) / (x1 - x0) < 1).
Proof.
  intros H. assert (Hd : 0 < x1 - x0) by lra. repeat split; intros Hx.
  - apply Qle_shift_div_l; [assumption | lra].
  - apply Qlt_shift_div_l; [assumption | lra].
  - apply Qle_shift_div_r; [assumption | lra].
  - apply Qlt_shift_div_r; [assumption | lra].
Qed.

Lemma linear_interpolate_weight (x0 y0 x1 y1 x : Q) :
  linear_interpolate x0 y0 x1 y1 x == y0 + (y1 - y0) * ((x - x0) / (x1 - x0)).
Proof. rewrite linear_interpolate_exact. unfold Qdiv. ring. Qed.

Lemma weight_monotone (x0 x1 x x' : Q) :
  x0 < x1 -> x <= x' -> (x - x0) / (x1 - x0) <= (x' - x0) / (x1 - x0).
Proof.
  intros H Hx. unfold Qdiv. apply Qmult_le_compat_r; [lra | ].
  apply Qlt_le_weak, Qinv_lt_0_compat. lra.
Qed.

(** Monotone in the query when the values ascend. *)
Lemma linear_interpolate_monotone (x0 y0 x1 y1 x x' : Q) :
  x0 < x1 -> y0 <= y1 -> x <= x' ->
  linear_interpolate x0 y0 x1 y1 x <= linear_interpolate x0 y0 x1 y1 x'.
Proof.
  intros H Hy Hx. rewrite !linear_interpolate_weight.
  pose proof (weight_monotone x0 x1 x x' H Hx).
  set (w := (x - x0) / (x1 - x0)) in *. set (w' := (x' - x0) / (x1 - x0)) in *.
  nra.
Qed.

(** Between the two values when the query is between the endpoints. *)
Lemma linear_interpolate_between (x0 y0 x1 y1 x : Q) :
  x0 < x1 -> y0 <= y1 -> x0 <= x <= x1 ->
  y0 <= linear_interpolate x0 y0 x1 y1 x <= y1.
Proof.
  intros H Hy [Hx0 Hx1]. rewrite !linear_interpolate_weight.
  destruct (weight_bounds x0 x1 x H) as (H0 & _ & H1 & _).
  specialize (H0 Hx0). specialize (H1 Hx1).
  set (w := (x - x0) / (x1 - x0)) in *. split; nra.
Qed.

(** Monotone in the two values when the query is between the endpoints. *)
Lemma linear_interpolate_values (x0 y0 y0' x1 y1 y1' x : Q) :
  x0 < x1 -> x0 <= x <= x1 -> y0 <= y0' -> y1 <= y1' ->
  linear_interpolate x0 y0 x1 y1 x <= linear_interpolate x0 y0' x1 y1' x.
Proof.
  intros H [Hx0 Hx1] Hy0 Hy1. rewrite !linear_interpolate_weight.
  destruct (weight_bounds x0 x1 x H) as (H0 & _ & H1 & _).
  specialize (H0 Hx0). specialize (H1 Hx1).
  set (w := (x - x0) / (x1 - x0)) in *. nra.
Qed.

End Exact.

(** ** The synthetic row without rounding *)

Section ExactRow.

Import InterpolableLUT.
Local Open Scope Q_scope.

(** In exact arithmetic the order is total, so a value inside the range
    of a sorted sequence has a bracket. *)
Lemma bracket_exists (l : list Q) (v : Q) :
  in_range l v = true ->
  exists lo, (0 <= lo <= Z.of_nat (length l) - 2)%Z /\ is_bracket l v lo = true.
Proof.
  unfold in_range.
  destruct (vec_at l 0) as [a0 | | ] eqn:H0; try discriminate.
  destruct (vec_at l (Z.of_nat (length l) - 1)) as [b0 | | ] eqn:H1;
    try discriminate.
  intros H. apply andb_true_iff in H as [Hle Hlt].
  assert (Hgen : forall (k : nat) (i : Z) (a : Q),
            (0 <= i)%Z -> (i + Z.of_nat k = Z.of_nat (length l) - 1)%Z ->
            vec_at l i = Ok a -> (a <=? v)%num = true ->
            exists lo, (i <= lo <= Z.of_nat (length l) - 2)%Z /\
                       is_bracket l v lo = true).
  { induction k as [ | k IH]; intros i a Hi Hk Ha Hav.
    - replace i with (Z.of_nat (length l) - 1)%Z in Ha by lia.
      assert (a = b0) by congruence. subst a.
      apply nlt_not_nle in Hlt. congruence.
    - destruct (vec_at_defined l (i + 1)) as [b Hb]; [lia | ].
      destruct (v <? b)%num eqn:Hvb.
      + exists i. split; [lia | ]. apply is_bracket_true. now exists a, b.
      + apply exact_nlt_false, exact_nle in Hvb.
        destruct (IH (i + 1)%Z b) as (lo & Hlo & Hbr); try assumption; try lia.
        exists lo. split; [lia | assumption]. }
  pose proof (vec_at_range _ _ _ H1) as Hr.
  apply (Hgen (Z.to_nat (Z.of_nat (length l) - 1)) 0%Z a0);
    try assumption; lia.
Qed.

(** The y-bracket of a value inside the range of a sorted Y reference,
    with the synthetic row it gives. *)
Lemma synthetic_row_spec (s : t Q) (y : Q) (lo : Z) :
  well_formed s -> ascending (y_ref s) = true ->
  is_bracket (y_ref s) y lo = true ->
  exists Y0 Y1 r0 r1 row,
    vec_at (y_ref s) lo = Ok Y0 /\ vec_at (y_ref s) (lo + 1) = Ok Y1 /\
    Y0 <= y /\ y < Y1 /\
    vec_at (table s) lo = Ok r0 /\ vec_at (table s) (lo + 1) = Ok r1 /\
    Z.of_nat (length r0) = x_len s /\ Z.of_nat (length r1) = x_len s /\
    find_nearest_indexes (y_ref s) (y_len s) y 0 0 = Ok (true, lo, (lo + 1)%Z) /\
    interpolated_y_values_at_x s lo (lo + 1) y = Ok row /\
    Z.of_nat (length row) = x_len s /\
    (forall j a b, vec_at r0 j = Ok a -> vec_at r1 j = Ok b ->
       vec_at row j = Ok (linear_interpolate Y0 a Y1 b y)).
Proof.
  intros Hwf Hs Hb.
  destruct (synthetic_row_at s y lo Hwf Hs Hb)
    as (Y0 & Y1 & r0 & r1 & row & HY0 & HY1 & Hle & Hlt & H).
  apply exact_nle in Hle. apply exact_nlt in Hlt.
  exists Y0, Y1, r0, r1, row. repeat split; try assumption; apply H.
Qed.

End ExactRow.

(** ** [find] without rounding *)

(** What the interpolation gives when no operation rounds.  These
    statements are about the instance [exact]; binary64 satisfies them
    only up to rounding, see [synthetic_row_not_convex] and
    [rounding_not_monotone]. *)

Section ExactFind.

Import InterpolableLUT.
Local Open Scope Q_scope.

(** Without rounding the synthetic row is, column by column, the convex
    combination [(1-w)*Grid[lo][i] + w*Grid[lo+1][i]] with
    [w = (y_input - y_ref[lo]) / (y_ref[lo+1] - y_ref[lo])], [0 < w < 1]. *)
Lemma exact_row_convex (s : t Q) (y_input : Q) (lo : Z) (Y0 Y1 : Q) :
  well_formed s -> ascending (y_ref s) = true ->
  vec_at (y_ref s) lo = Ok Y0 -> vec_at (y_ref s) (lo + 1) = Ok Y1 ->
  Y0 < y_input < Y1 ->
  let w := (y_input - Y0) / (Y1 - Y0) in
  0 < w < 1 /\
  exists r0 r1 row,
    vec_at (table s) lo = Ok r0 /\ vec_at (table s) (lo + 1) = Ok r1 /\
    find_nearest_indexes (y_ref s) (y_len s) y_input 0 0
    = Ok (true, lo, (lo + 1)%Z) /\
    interpolated_y_values_at_x s lo (lo + 1) y_input = Ok row /\
    Z.of_nat (length row) = x_len s /\
    forall i, (0 <= i < x_len s)%Z ->
      exists a b c,
        vec_at r0 i = Ok a /\ vec_at r1 i = Ok b /\ vec_at row i = Ok c /\
        c == (1 - w) * a + w * b.
Proof.
  intros Hwf Hs HY0 HY1 [Hlo Hhi] w.
  assert (HY : Y0 < Y1) by lra.
  split.
  { destruct (weight_bounds Y0 Y1 y_input HY) as (_ & H0 & _ & H1).
    split; [now apply H0 | now apply H1]. }
  assert (Hb : is_bracket (y_ref s) y_input lo = true).
  { apply is_bracket_true. exists Y0, Y1. repeat split; try assumption.
    - apply exact_nle. lra.
    - now apply exact_nlt. }
  destruct (synthetic_row_spec s y_input lo Hwf Hs Hb)
    as (Y0' & Y1' & r0 & r1 & row & HY0' & HY1' & _ & _ & Hr0 & Hr1 & Hl0 & Hl1
        & Hfind & Hrow & Hlen & Hcol).
  assert (Y0' = Y0) by congruence. assert (Y1' = Y1) by congruence. subst.
  exists r0, r1, row. repeat split; try assumption.
  intros i Hi.
  destruct (vec_at_defined r0 i) as [a Ha]; [lia | ].
  destruct (vec_at_defined r1 i) as [b Hb']; [lia | ].
  exists a, b, (linear_interpolate Y0 a Y1 b y_input).
  repeat split; try assumption; [now apply Hcol | ].
  now apply linear_interpolate_convex.
Qed.

(** The synthetic row of a table whose grid rows ascend is ascending. *)
Lemma synthetic_row_ascending (s : t Q) (y : Q) (lo : Z) :
  well_formed s -> ascending (y_ref s) = true ->
  Forall (fun r => ascending r = true) (table s) ->
  is_bracket (y_ref s) y lo = true ->
  exists row,
    find_nearest_indexes (y_ref s) (y_len s) y 0 0 = Ok (true, lo, (lo + 1)%Z) /\
    interpolated_y_values_at_x s lo (lo + 1) y = Ok row /\
    Z.of_nat (length row) = x_len s /\
    ascending row = true.
Proof.
  intros Hwf Hs Hrows Hb.
  destruct (synthetic_row_spec s y lo Hwf Hs Hb)
    as (Y0 & Y1 & r0 & r1 & row & HY0 & HY1 & Hle & Hlt & Hr0 & Hr1 & Hl0 & Hl1
        & Hfind & Hrow & Hlen & Hcol).
  exists row. repeat split; try assumption.
  pose proof (row_of_table s _ _ _ Hrows Hr0) as Hs0.
  pose proof (row_of_table s _ _ _ Hrows Hr1) as Hs1.
  apply ascending_intro. intros i c c' Hc Hc'.
  pose proof (vec_at_range _ _ _ Hc). pose proof (vec_at_range _ _ _ Hc').
  destruct (vec_at_defined r0 i) as [a Ha]; [lia | ].
  destruct (vec_at_defined r0 (i + 1)) as [a' Ha']; [lia | ].
  destruct (vec_at_defined r1 i) as [b Hb0]; [lia | ].
  destruct (vec_at_defined r1 (i + 1)) as [b' Hb0']; [lia | ].
  pose proof (Hcol i a b Ha Hb0) as Hci.
  pose proof (Hcol (i + 1)%Z a' b' Ha' Hb0') as Hci'.
  assert (c = linear_interpolate Y0 a Y1 b y) by congruence.
  assert (c' = linear_interpolate Y0 a' Y1 b' y) by congruence. subst.
  apply exact_nle. apply linear_interpolate_values.
  - lra.
  - lra.
  - apply exact_nle. apply (ascending_adjacent r0 i); assumption.
  - apply exact_nle. apply (ascending_adjacent r1 i); assumption.
Qed.

(** Inside the range of an ascending row, [find] is monotone. *)
Lemma monotone_inside_row (s : t Q) (x1 x2 y : Q) (lo : Z) (row : list Q) :
  well_formed s -> ascending (x_ref s) = true ->
  find_nearest_indexes (y_ref s) (y_len s) y 0 0 = Ok (true, lo, (lo + 1)%Z) ->
  interpolated_y_values_at_x s lo (lo + 1) y = Ok row ->
  Z.of_nat (length row) = x_len s -> ascending row = true ->
  in_range row x1 = true -> in_range row x2 = true -> x1 <= x2 ->
  exists r1 r2,
    find s x1 y = Ok r1 /\ find s x2 y = Ok r2 /\ r1 <= r2.
Proof.
  intros Hwf Hxs Hfind Hrow Hlen Hasc Hin1 Hin2 Hx.
  destruct (bracket_exists row x1 Hin1) as (l1 & Hl1 & Hb1).
  destruct (bracket_exists row x2 Hin2) as (l2 & Hl2 & Hb2).
  assert (Hl12 : (l1 <= l2)%Z).
  { apply (bracket_monotone row x1 x2 l1 l2); try assumption.
    now apply exact_nle. }
  pose proof (find_nearest_indexes_at row (x_len s) x1 l1 0 0
                ltac:(lia) Hasc ltac:(lia) Hb1) as Hf1.
  pose proof (find_nearest_indexes_at row (x_len s) x2 l2 0 0
                ltac:(lia) Hasc ltac:(lia) Hb2) as Hf2.
  apply is_bracket_true in Hb1 as (a1 & c1 & Ha1 & Hc1 & Hle1 & Hlt1).
  apply is_bracket_true in Hb2 as (a2 & c2 & Ha2 & Hc2 & Hle2 & Hlt2).
  apply exact_nle in Hle1, Hle2. apply exact_nlt in Hlt1, Hlt2.
  destruct (vec_at_defined (x_ref s) l1) as [b1 HX1];
    [rewrite (wf_x_ref s Hwf); lia | ].
  destruct (vec_at_defined (x_ref s) (l1 + 1)) as [d1 HX1'];
    [rewrite (wf_x_ref s Hwf); lia | ].
  destruct (vec_at_defined (x_ref s) l2) as [b2 HX2];
    [rewrite (wf_x_ref s Hwf); lia | ].
  destruct (vec_at_defined (x_ref s) (l2 + 1)) as [d2 HX2'];
    [rewrite (wf_x_ref s Hwf); lia | ].
  pose proof (ascending_adjacent _ _ _ _ Hxs HX1 HX1') as Hbd1.
  pose proof (ascending_adjacent _ _ _ _ Hxs HX2 HX2') as Hbd2.
  apply exact_nle in Hbd1, Hbd2.
  exists (linear_interpolate a1 b1 c1 d1 x1), (linear_interpolate a2 b2 c2 d2 x2).
  split; [eapply find_x_some; eassumption | ].
  split; [eapply find_x_some; eassumption | ].
  destruct (Z.eq_dec l1 l2) as [E | Hne].
  - subst l2.
    assert (a2 = a1) by congruence. assert (c2 = c1) by congruence.
    assert (b2 = b1) by congruence. assert (d2 = d1) by congruence. subst.
    apply linear_interpolate_monotone; lra.
  - assert (Hd1b2 : d1 <= b2).
    { destruct (Z.eq_dec (l1 + 1) l2) as [E | Hne'].
      - rewrite E in HX1'. assert (d1 = b2) by congruence. subst. lra.
      - apply exact_nle. apply (ascending_le (x_ref s) (l1 + 1) l2);
          try assumption. lia. }
    pose proof (linear_interpolate_between a1 b1 c1 d1 x1
                  ltac:(lra) Hbd1 ltac:(lra)) as [_ H1].
    pose proof (linear_interpolate_between a2 b2 c2 d2 x2
                  ltac:(lra) Hbd2 ltac:(lra)) as [H2 _].
    lra.
Qed.

(** Without rounding, with the Y reference, the X reference and the grid
    rows ascending and [y_input] inside the range of the Y reference,
    [find] is monotone non-decreasing over every [x1 <= x2] that are both
    inside the range of the synthetic row or both outside it. *)
Lemma exact_find_monotone (s : t Q) (x1 x2 y_input : Q) :
  well_formed s ->
  ascending (y_ref s) = true -> ascending (x_ref s) = true ->
  Forall (fun r => ascending r = true) (table s) ->
  in_range (y_ref s) y_input = true ->
  in_row_range s y_input x1 = in_row_range s y_input x2 ->
  x1 <= x2 ->
  exists r1 r2,
    find s x1 y_input = Ok r1 /\ find s x2 y_input = Ok r2 /\ r1 <= r2.
Proof.
  intros Hwf Hys Hxs Hrows Hy Hsame Hx.
  destruct (bracket_exists (y_ref s) y_input Hy) as (lo & Hlo & Hb).
  destruct (synthetic_row_ascending s y_input lo Hwf Hys Hrows Hb)
    as (row & Hfind & Hrow & Hlen & Hasc).
  unfold in_row_range in Hsame.
  rewrite (synthetic_row_found s y_input lo (lo + 1) row Hfind Hrow) in Hsame.
  destruct (in_range row x1) eqn:Hin1.
  - now apply (monotone_inside_row s x1 x2 y_input lo row).
  - exists x1, x2. repeat split; try assumption.
    + now apply (find_identity_outside s x1 y_input lo (lo + 1) row).
    + now apply (find_identity_outside s x2 y_input lo (lo + 1) row).
Qed.

End ExactFind.

(** ** Runs in exact arithmetic *)

Lemma table_2x2_well_formed : InterpolableLUT.well_formed table_2x2.
Proof. constructor; [reflexivity | repeat constructor | reflexivity | reflexivity]. Qed.


(** C2 as stated fails at the last column: on [table_2x2], at
    [y_input = y_ref[0] = 0] and [x_input = Grid[0][1] = 2], row 0 is
    not the last row, yet [find] returns [2] and not [x_ref[1] = 20]. *)
Lemma last_column_not_mapped :
  ~ (forall (s : InterpolableLUT.t Q) (k j : Z) (x_input y_input Yk g Xj : Q)
            (rk : list Q),
       InterpolableLUT.well_formed s ->
       increasing (InterpolableLUT.y_ref s) = true ->
       Forall (fun r => increasing r = true) (InterpolableLUT.table s) ->
       vec_at (InterpolableLUT.y_ref s) k = Ok Yk ->
       vec_at (InterpolableLUT.table s) k = Ok rk ->
       vec_at rk j = Ok g -> vec_at (InterpolableLUT.x_ref s) j = Ok Xj ->
       (y_input == Yk)%Q -> (x_input == g)%Q ->
       k <> InterpolableLUT.y_len s - 1 ->
       exists r, InterpolableLUT.find s x_input y_input = Ok r /\ (r == Xj)%Q).
Proof.
  intros H.
  destruct (H table_2x2 0 1 2%Q 0%Q 0%Q 2%Q 20%Q [1; 2]%Q) as (r & Hr & Heq);
    try reflexivity.
  - apply table_2x2_well_formed.
  - repeat constructor.
  - discriminate.
  - vm_compute in Hr. injection Hr as <-. discriminate.
Qed.


(** ** Runs in binary64 on the table of [example()] *)

(** The first and the last call of [example()]. *)
Lemma example_find_7_01_37 :
  InterpolableLUT.find lutPh 7.01%float 37%float = Ok 7.035094696969697%float.
Proof. reflexivity. Qed.

Lemma example_find_10_01_0_01 :
  InterpolableLUT.find lutPh 10.01%float 0.01%float = Ok 9.710949069767441%float.
Proof. reflexivity. Qed.

(** The grid point of the 0 degree row and the last column is returned
    unchanged, not mapped to [ph_values_at_25[6] = 12.46]. *)
Lemma example_last_column :
  vec_at temp_points 0 = Ok 0%float /\
  vec_at ph_values 0 = Ok [1.67; 4.01; 6.98; 7.12; 9.46; 10.32; 13.47]%float /\
  vec_at ph_values_at_25 6 = Ok 12.46%float /\
  InterpolableLUT.find lutPh 13.47%float 0%float = Ok 13.47%float.
Proof. repeat split. Qed.

(** At 50 degrees the synthetic row starts at 1.71: the input 1.70 is
    below it and is returned unchanged, 1.71 is mapped to 1.68. *)
Lemma example_not_monotone :
  ascending temp_points = true /\ ascending ph_values_at_25 = true /\
  forallb ascending ph_values = true /\
  in_range temp_points 50%float = true /\
  (1.70 <=? 1.71)%float = true /\
  InterpolableLUT.find lutPh 1.70%float 50%float = Ok 1.70%float /\
  InterpolableLUT.find lutPh 1.71%float 50%float = Ok 1.68%float /\
  (1.68 <? 1.70)%float = true.
Proof. repeat split. Qed.

(** ** Runs in binary64 on small tables *)

Lemma table_2x2_binary64_well_formed :
  InterpolableLUT.well_formed table_2x2_binary64.
Proof. constructor; [reflexivity | repeat constructor | reflexivity | reflexivity]. Qed.

Lemma table_one_column_well_formed :
  InterpolableLUT.well_formed table_one_column.
Proof. constructor; [reflexivity | repeat constructor | reflexivity | reflexivity]. Qed.

Lemma find_grid_point_witness :
  (InterpolableLUT.well_formed table_2x2_binary64 /\
   increasing (InterpolableLUT.y_ref table_2x2_binary64) = true /\
   Forall (fun r => increasing r = true)
     (InterpolableLUT.table table_2x2_binary64) /\
   vec_at (InterpolableLUT.y_ref table_2x2_binary64) 0 = Ok 0%float /\
   vec_at (InterpolableLUT.table table_2x2_binary64) 0 = Ok [1; 2]%float /\
   vec_at [1; 2]%float 0 = Ok 1%float /\
   vec_at (InterpolableLUT.x_ref table_2x2_binary64) 0 = Ok 10%float /\
   (0 =? 0)%float = true /\ (1 =? 1)%float = true /\
   vec_at (InterpolableLUT.table table_2x2_binary64) (0 + 1)
   = Ok [3; 4]%float /\
   vec_at [1; 2]%float (0 + 1) = Ok 2%float /\
   vec_at [3; 4]%float 0 = Ok 3%float /\
   vec_at [3; 4]%float (0 + 1) = Ok 4%float /\
   vec_at (InterpolableLUT.x_ref table_2x2_binary64) (0 + 1) = Ok 20%float /\
   is_finite 0%float = true /\
   is_finite (3 - 1)%float = true /\ is_finite (4 - 2)%float = true /\
   is_finite (20 - 10)%float = true) /\
  exists r,
    InterpolableLUT.find table_2x2_binary64 1%float 0%float = Ok r /\
    (r =? 10)%float = true.
Proof.
  assert (Hrows : Forall (fun r => increasing r = true)
                    (InterpolableLUT.table table_2x2_binary64))
    by (repeat constructor).
  split.
  - split; [exact table_2x2_binary64_well_formed | ].
    repeat split; try reflexivity; assumption.
  - refine (proj1 (find_grid_point table_2x2_binary64 0 0 1%float 0%float
                     0%float 1%float 10%float [1; 2]%float
                     table_2x2_binary64_well_formed _ Hrows _ _ _ _ _ _)
              [3; 4]%float 2%float 3%float 4%float 20%float
              _ _ _ _ _ _ _ _ _); reflexivity.
Defined.

(** The amended C2 needs its conditions on overflow: on [table_overflow]
    the difference [1e308 - (-1e308)] of the first column is infinite,
    the synthetic row at [y_input = 0] starts with a NaN, and the grid
    point of row 0 and column 0 is returned unchanged instead of mapped to
    [x_ref[0] = 10]. *)
Lemma overflow_not_mapped :
  increasing (InterpolableLUT.y_ref table_overflow) = true /\
  forallb increasing (InterpolableLUT.table table_overflow) = true /\
  is_finite (1e308 - -1e308)%float = false /\
  InterpolableLUT.interpolated_y_values_at_x table_overflow 0 1 0%float
  = Ok [nan; 0%float] /\
  InterpolableLUT.find table_overflow (-1e308)%float 0%float
  = Ok (-1e308)%float.
Proof. repeat split. Qed.

(** C5 as stated fails in binary64: on [table_one_column], at the
    [y_input] just below [y_ref[1] = 6.8], the element of the synthetic
    row is negative, below both grid values [3.9] and [0] of its column;
    the weight [t] is computed as [1], not below [1], and the convex
    combination evaluates to another value than the element. *)
Lemma synthetic_row_not_convex :
  let y_input := next_down 6.8%float in
  let t := ((y_input - 2.1) / (6.8 - 2.1))%float in
  ascending (InterpolableLUT.y_ref table_one_column) = true /\
  vec_at (InterpolableLUT.y_ref table_one_column) 0 = Ok 2.1%float /\
  vec_at (InterpolableLUT.y_ref table_one_column) 1 = Ok 6.8%float /\
  (2.1 <? y_input)%float = true /\ (y_input <? 6.8)%float = true /\
  exists c,
    InterpolableLUT.interpolated_y_values_at_x table_one_column 0 1 y_input
    = Ok [c] /\
    (c <? 0)%float = true /\
    (t <? 1)%float = false /\
    (c =? (1 - t) * 3.9 + t * 0)%float = false.
Proof.
  cbv zeta. repeat split. eexists. repeat split.
Qed.

Lemma synthetic_row_interpolates_witness :
  (InterpolableLUT.well_formed table_one_column /\
   ascending (InterpolableLUT.y_ref table_one_column) = true /\
   vec_at (InterpolableLUT.y_ref table_one_column) 0 = Ok 2.1%float /\
   vec_at (InterpolableLUT.y_ref table_one_column) (0 + 1) = Ok 6.8%float /\
   (2.1 <? 4)%float = true /\ (4 <? 6.8)%float = true) /\
  exists r0 r1 row,
    vec_at (InterpolableLUT.table table_one_column) 0 = Ok r0 /\
    vec_at (InterpolableLUT.table table_one_column) (0 + 1) = Ok r1 /\
    InterpolableLUT.find_nearest_indexes
      (InterpolableLUT.y_ref table_one_column)
      (InterpolableLUT.y_len table_one_column) 4%float 0 0
    = Ok (true, 0, 0 + 1) /\
    InterpolableLUT.interpolated_y_values_at_x table_one_column 0 (0 + 1)
      4%float = Ok row /\
    Z.of_nat (length row) = InterpolableLUT.x_len table_one_column /\
    forall i, 0 <= i < InterpolableLUT.x_len table_one_column ->
      exists a b,
        vec_at r0 i = Ok a /\ vec_at r1 i = Ok b /\
        vec_at row i = Ok (a + (b - a) * (4 - 2.1) / (6.8 - 2.1))%float.
Proof.
  split.
  - split; [exact table_one_column_well_formed | repeat split; reflexivity].
  - refine (synthetic_row_interpolates table_one_column 4%float 0
              2.1%float 6.8%float table_one_column_well_formed _ _ _ _ _);
      reflexivity.
Defined.

(** Monotonicity also fails by rounding, between two inputs that are both
    inside the range of the synthetic row: on [table_rounding] at
    [y_input = 0] the synthetic row is the grid row [0.1 0.9 1.9]; the
    input just below [0.9] is mapped above [x_ref[1] = 3.4], to which
    [0.9] is mapped. *)
Lemma rounding_not_monotone :
  let x1 := next_down 0.9%float in
  ascending (InterpolableLUT.y_ref table_rounding) = true /\
  ascending (InterpolableLUT.x_ref table_rounding) = true /\
  forallb ascending (InterpolableLUT.table table_rounding) = true /\
  in_range (InterpolableLUT.y_ref table_rounding) 0%float = true /\
  in_row_range table_rounding 0%float x1 = true /\
  in_row_range table_rounding 0%float 0.9%float = true /\
  (x1 <=? 0.9)%float = true /\
  InterpolableLUT.find table_rounding x1 0%float = Ok 3.4000000000000004%float /\
  InterpolableLUT.find table_rounding 0.9%float 0%float = Ok 3.4%float /\
  (3.4 <? 3.4000000000000004)%float = true.
Proof. cbv zeta. repeat split. Qed.


Lemma synthetic_row_is_grid_row_witness :
  (InterpolableLUT.well_formed table_2x2_binary64 /\
   increasing (InterpolableLUT.y_ref table_2x2_binary64) = true /\
   vec_at (InterpolableLUT.y_ref table_2x2_binary64) 0 = Ok 0%float /\
   vec_at (InterpolableLUT.table table_2x2_binary64) 0 = Ok [1; 2]%float /\
   (0 =? 0)%float = true /\ is_finite 0%float = true /\
   0 < InterpolableLUT.y_len table_2x2_binary64 - 1 /\
   finite_differences [1; 2]%float [3; 4]%float = true) /\
  exists row,
    synthetic_row table_2x2_binary64 0%float = Ok (Some row) /\
    length row = length [1; 2]%float /\
    forall i a, vec_at [1; 2]%float i = Ok a ->
      exists c, vec_at row i = Ok c /\ (c =? a)%float = true.
Proof.
  assert (Hk : 0 < InterpolableLUT.y_len table_2x2_binary64 - 1) by reflexivity.
  split.
  - split; [exact table_2x2_binary64_well_formed | ].
    repeat split; try reflexivity; assumption.
  - refine (synthetic_row_is_grid_row table_2x2_binary64 0%float 0 0%float
              [1; 2]%float table_2x2_binary64_well_formed _ _ _ _ _ Hk _);
      try reflexivity.
    intros rk1 H. vm_compute in H. injection H as <-. reflexivity.
Defined.

Lemma find_never_divides_by_zero_witness :
  exists r log,
    InterpolableLUT.find_log lutPh 7.01%float 37%float = Ok (r, log) /\
    length log = 8%nat /\
    InterpolableLUT.find lutPh 7.01%float 37%float = Ok r /\
    Forall (fun c => (fst c <? snd c)%float = true /\
                     (0 <? snd c - fst c)%float = true) log.
Proof.
  eexists. eexists. split; [reflexivity | ]. split; [reflexivity | ].
  apply (proj2 (find_never_divides_by_zero lutPh 7.01%float 37%float)).
  reflexivity.
Defined.

(** ** Printing *)

Section Printing.
Context {D : Type} {N : Number D}.
Variable put_fixed2 : D -> text.
Variable printf_2f : D -> text.

Lemma skipn_nth_error {A : Type} (l : list A) (n : nat) (a : A) :
  nth_error l n = Some a -> skipn n l = a :: skipn (S n) l.
Proof.
  revert n. induction l as [ | b l IH]; intros [ | n] H; try discriminate.
  - now injection H as ->.
  - cbn in H. apply IH in H. cbn [skipn]. rewrite H. reflexivity.
Qed.

Lemma skipn_vec_at {A : Type} (l : list A) (i : Z) (a : A) :
  vec_at l i = Ok a ->
  skipn (Z.to_nat i) l = a :: skipn (Z.to_nat (i + 1)) l.
Proof.
  intros H. apply vec_at_Ok in H as [Hi H].
  replace (Z.to_nat (i + 1)) with (S (Z.to_nat i)) by lia.
  now apply skipn_nth_error.
Qed.

Lemma render_cons (fmt : D -> text) (sep : text) (y : D) (ys : list D)
    (r : list D) (rows : list (list D)) :
  render fmt sep (y :: ys) (r :: rows) =
  render_row fmt sep y r ++ render fmt sep ys rows.
Proof. reflexivity. Qed.

(** One step of the inner loop of [operator<<]. *)
Lemma put_columns_step (table : InterpolableLUT.t D) (i j : Z) (os : text) :
  put_columns put_fixed2 table i j os =
  match InterpolableLUT.operator_subscript table i with
  | Ok r =>
      if j <? Z.of_nat (length r) then
        match vec_at r j with
        | Ok v => put_columns put_fixed2 table i (j + 1) (os ++ put_fixed2 v ++ tab)
        | Throw e => (os, Throw e)
        | Undefined => (os, Undefined)
        end
      else (os, Ok tt)
  | Throw e => (os, Throw e)
  | Undefined => (os, Undefined)
  end.
Proof.
  funelim (put_columns put_fixed2 table i j os).
  - rewrite e1. reflexivity.
  - rewrite e. reflexivity.
  - rewrite Hr, Hj. reflexivity.
  - rewrite Hr, e. reflexivity.
Qed.

(** When [table[i]] returns a row, the inner loop writes the rest of it. *)
Lemma put_columns_row (table : InterpolableLUT.t D) (i : Z) (r : list D) :
  InterpolableLUT.operator_subscript table i = Ok r ->
  forall (k : nat) (j : Z) (os : text),
    0 <= j -> Z.of_nat k = Z.of_nat (length r) - j ->
    put_columns put_fixed2 table i j os =
    (os ++ flat_map (fun v => put_fixed2 v ++ tab) (skipn (Z.to_nat j) r), Ok tt).
Proof.
  intros Hr. induction k as [ | k IH]; intros j os Hj Hk.
  - rewrite put_columns_step, Hr.
    destruct (Z.ltb_spec j (Z.of_nat (length r))); [lia | ].
    rewrite skipn_all2 by lia. cbn. now rewrite app_nil_r.
  - rewrite put_columns_step, Hr.
    destruct (Z.ltb_spec j (Z.of_nat (length r))); [ | lia].
    destruct (vec_at_defined r j) as [v Hv]; [lia | ].
    rewrite Hv, (skipn_vec_at r j v Hv). cbn [flat_map].
    rewrite IH by lia. now rewrite !app_assoc.
Qed.

Lemma put_columns_throw (table : InterpolableLUT.t D) (i j : Z) (os : text)
    (e : exn) :
  InterpolableLUT.operator_subscript table i = Throw e ->
  put_columns put_fixed2 table i j os = (os, Throw e).
Proof. intros H. now rewrite put_columns_step, H. Qed.

Lemma put_rows_app (table : InterpolableLUT.t D) (ys : list D) (n1 n2 : nat) :
  forall (i : Z) (os : text),
    put_rows put_fixed2 table ys (n1 + n2) i os =
    match put_rows put_fixed2 table ys n1 i os with
    | (os', Ok _) => put_rows put_fixed2 table ys n2 (i + Z.of_nat n1) os'
    | other => other
    end.
Proof.
  induction n1 as [ | n1 IH]; intros i os.
  - cbn. now rewrite Z.add_0_r.
  - cbn [Nat.add put_rows].
    destruct (vec_at ys i) as [y | e | ]; try reflexivity.
    destruct (put_columns put_fixed2 table i 0 (os ++ put_fixed2 y ++ tab))
      as [os' [[] | e | ]]; try reflexivity.
    rewrite IH. replace (i + 1 + Z.of_nat n1) with (i + Z.of_nat (S n1)) by lia.
    reflexivity.
Qed.

(** The rows that [operator[]] lets through are written in full. *)
Lemma put_rows_complete (tb : list (list D)) (xr yr : list D) (xl yl : Z)
    (ys : list D) :
  yl <= Z.of_nat (length tb) -> yl < 2 ^ 31 ->
  forall (n : nat) (i : Z) (os : text),
    0 <= i -> i + Z.of_nat n <= Z.of_nat (length ys) -> i + Z.of_nat n <= yl ->
    put_rows put_fixed2 (InterpolableLUT.make tb xr yr xl yl) ys n i os =
    (os ++ render put_fixed2 tab
             (firstn n (skipn (Z.to_nat i) ys)) (skipn (Z.to_nat i) tb),
     Ok tt).
Proof.
  intros Htb Hint. induction n as [ | n IH]; intros i os Hi Hys Hyl.
  - cbn. now rewrite app_nil_r.
  - cbn [put_rows].
    destruct (vec_at_defined ys i) as [y Hy]; [lia | ].
    destruct (vec_at_defined tb i) as [r Hr]; [lia | ].
    assert (Hsub : InterpolableLUT.operator_subscript
                     (InterpolableLUT.make tb xr yr xl yl) i = Ok r).
    { unfold InterpolableLUT.operator_subscript, to_size_t.
      cbn [InterpolableLUT.y_len InterpolableLUT.table].
      rewrite Z.mod_small by lia.
      destruct (Z.leb_spec yl i); [lia | assumption]. }
    rewrite Hy, (put_columns_row _ i r Hsub (length r) 0) by lia.
    rewrite IH by lia.
    rewrite (skipn_vec_at ys i y Hy), (skipn_vec_at tb i r Hr).
    cbn [firstn]. rewrite render_cons. unfold render_row. cbn [skipn Z.to_nat].
    now rewrite !app_assoc.
Qed.

(** X1: when the Y reference has at most [y_len] entries and the grid at
    least [y_len] rows, [operator<<] returns and has written one line for
    each entry of the Y reference: its value, a tab, every value of the
    grid row of the same index, each followed by a tab, and a newline.
    Rows are written whole, whatever [x_len] is. *)
Theorem operator_insert_complete (tb : list (list D)) (xr yr : list D)
    (xl yl : Z) (os : text) :
  Z.of_nat (length yr) <= yl -> yl <= Z.of_nat (length tb) -> yl < 2 ^ 31 ->
  operator_insert put_fixed2 os (InterpolableLUT.make tb xr yr xl yl) =
  (os ++ render put_fixed2 tab yr tb, Ok tt).
Proof.
  intros Hyr Htb Hint. unfold operator_insert, InterpolableLUT.getYRef.
  cbn [InterpolableLUT.y_ref].
  rewrite (put_rows_complete tb xr yr xl yl yr Htb Hint) by lia.
  cbn [Z.to_nat skipn]. now rewrite firstn_all.
Qed.

(** X2: when the Y reference has more than [y_len] entries, [operator<<]
    does not return: after the first [y_len] lines it writes the Y value
    of index [y_len] and a tab, and then the row access throws
    [std::out_of_range]. *)
Theorem operator_insert_throws (tb : list (list D)) (xr yr : list D)
    (xl yl : Z) (os : text) (y : D) :
  0 <= yl -> yl <= Z.of_nat (length tb) -> yl < 2 ^ 31 ->
  vec_at yr yl = Ok y ->
  operator_insert put_fixed2 os (InterpolableLUT.make tb xr yr xl yl) =
  (os ++ render put_fixed2 tab (firstn (Z.to_nat yl) yr) tb
      ++ put_fixed2 y ++ tab,
   Throw out_of_range).
Proof.
  intros Hyl Htb Hint Hy. pose proof (vec_at_range _ _ _ Hy) as Hr.
  unfold operator_insert, InterpolableLUT.getYRef. cbn [InterpolableLUT.y_ref].
  replace (length yr) with (Z.to_nat yl + S (length yr - S (Z.to_nat yl)))%nat
    by lia.
  rewrite put_rows_app.
  rewrite (put_rows_complete tb xr yr xl yl yr Htb Hint) by lia.
  cbn [Z.to_nat skipn]. rewrite Z.add_0_l, Z2Nat.id by lia.
  cbn [put_rows]. rewrite Hy.
  rewrite put_columns_throw with (e := out_of_range).
  - now rewrite !app_assoc.
  - unfold InterpolableLUT.operator_subscript, to_size_t.
    cbn [InterpolableLUT.y_len]. rewrite Z.mod_small by lia.
    destruct (Z.leb_spec yl yl); [reflexivity | lia].
Qed.

Lemma print_columns_row (s : InterpolateLUT.t D) (i : Z) (r : list D) :
  vec_at (InterpolateLUT.table s) i = Ok r ->
  forall (n : nat) (j : Z) (out : text),
    0 <= j -> j + Z.of_nat n <= Z.of_nat (length r) ->
    print_columns printf_2f s i n j out =
    (out ++ flat_map (fun v => printf_2f v ++ tab)
              (firstn n (skipn (Z.to_nat j) r)),
     Ok tt).
Proof.
  intros Hr. induction n as [ | n IH]; intros j out Hj Hn.
  - cbn. now rewrite app_nil_r.
  - cbn [print_columns]. rewrite Hr. cbn [bind].
    destruct (vec_at_defined r j) as [v Hv]; [lia | ].
    rewrite Hv, IH by lia. rewrite (skipn_vec_at r j v Hv).
    cbn [firstn flat_map]. now rewrite !app_assoc.
Qed.

Lemma print_rows_complete (tb : list (list D)) (xr yr : list D) (xl yl : Z) :
  Forall (fun r => xl <= Z.of_nat (length r)) tb ->
  forall (n : nat) (i : Z) (out : text),
    0 <= i -> i + Z.of_nat n <= Z.of_nat (length yr) ->
    i + Z.of_nat n <= Z.of_nat (length tb) ->
    print_rows printf_2f (InterpolateLUT.make tb xr yr xl yl) n i out =
    (out ++ render printf_2f (colon ++ tab)
              (firstn n (skipn (Z.to_nat i) yr))
              (map (firstn (Z.to_nat xl)) (skipn (Z.to_nat i) tb)),
     Ok tt).
Proof.
  intros Hcols. induction n as [ | n IH]; intros i out Hi Hyr Htb.
  - cbn. now rewrite app_nil_r.
  - cbn [print_rows InterpolateLUT.y_ref InterpolateLUT.x_len].
    destruct (vec_at_defined yr i) as [y Hy]; [lia | ].
    destruct (vec_at_defined tb i) as [r Hr]; [lia | ].
    assert (Hlen : xl <= Z.of_nat (length r)).
    { apply vec_at_Ok in Hr as [_ Hr]. apply nth_error_In in Hr.
      rewrite Forall_forall in Hcols. now apply Hcols. }
    rewrite Hy.
    rewrite (print_columns_row (InterpolateLUT.make tb xr yr xl yl) i r Hr)
      by lia.
    rewrite IH by lia.
    rewrite (skipn_vec_at yr i y Hy), (skipn_vec_at tb i r Hr).
    cbn [firstn map]. rewrite render_cons. unfold render_row.
    cbn [skipn Z.to_nat]. now rewrite !app_assoc.
Qed.

(** X3: when the Y reference and the grid have at least [y_len] entries
    and every grid row at least [x_len] values, [verifyTables] returns
    and has written [y_len] lines: the Y value, a colon, a tab, the
    first [x_len] values of the grid row, each followed by a tab, and a
    newline. *)
Theorem verifyTables_complete (tb : list (list D)) (xr yr : list D)
    (xl yl : Z) (out : text) :
  yl <= Z.of_nat (length yr) -> yl <= Z.of_nat (length tb) ->
  Forall (fun r => xl <= Z.of_nat (length r)) tb ->
  verifyTables printf_2f (InterpolateLUT.make tb xr yr xl yl) out =
  (out ++ render printf_2f (colon ++ tab)
            (firstn (Z.to_nat yl) yr) (map (firstn (Z.to_nat xl)) tb),
   Ok tt).
Proof.
  intros Hyr Htb Hcols. unfold verifyTables. cbn [InterpolateLUT.y_len].
  rewrite (print_rows_complete tb xr yr xl yl Hcols) by lia.
  reflexivity.
Qed.

End Printing.

(** ** The two passes of [find] *)

Section TwoPasses.
Context {D : Type} {N : Number D}.

Import InterpolableLUT.

(** [find] is its first pass followed by its second pass. *)
Lemma find_passes (s : t D) (x y : D) :
  find s x y =
  (r <- synthetic_row s y ;;
   match r with
   | Some row => find_in_row s row x
   | None => Ok x
   end).
Proof.
  unfold find, synthetic_row, find_in_row.
  destruct (find_nearest_indexes (y_ref s) (y_len s) y 0 0)
    as [[[found_y lo] hi] | | ]; cbn [bind]; try reflexivity.
  destruct found_y; [ | reflexivity].
  destruct (interpolated_y_values_at_x s lo hi y); reflexivity.
Qed.

(** On a well-formed table the second pass over a row of [x_len]
    elements is defined: it returns [x_input] or the interpolation in the
    bracket found. *)
Lemma find_in_row_cases (s : t D) (row : list D) (x : D) :
  well_formed s -> Z.of_nat (length row) = x_len s ->
  ((forall lo, (0 <= lo <= x_len s - 2)%Z -> is_bracket row x lo = false) /\
   find_in_row s row x = Ok x) \/
  (exists lo a b c d,
      (0 <= lo <= x_len s - 2)%Z /\ is_bracket row x lo = true /\
      (forall j, 0 <= j < lo -> is_bracket row x j = false) /\
      vec_at row lo = Ok a /\ vec_at (x_ref s) lo = Ok b /\
      vec_at row (lo + 1) = Ok c /\ vec_at (x_ref s) (lo + 1) = Ok d /\
      (a <=? x)%num = true /\ (x <? c)%num = true /\
      find_in_row s row x = Ok (linear_interpolate a b c d x)).
Proof.
  intros Hwf Hlen. unfold find_in_row.
  destruct (find_nearest_indexes_spec row (x_len s) x 0 0)
    as [(lo & Hlo & Hb & Hfirst & Hx) | [Hnone Hx]]; [lia | | ].
  - right. pose proof Hb as Hb'.
    apply is_bracket_true in Hb' as (a & c & Ha & Hc & Hle & Hlt).
    destruct (vec_at_defined (x_ref s) lo) as [b Hxb];
      [rewrite (wf_x_ref s Hwf); lia | ].
    destruct (vec_at_defined (x_ref s) (lo + 1)) as [d Hxd];
      [rewrite (wf_x_ref s Hwf); lia | ].
    exists lo, a, b, c, d. rewrite Hx. cbn [bind]. rewrite Ha, Hxb, Hc, Hxd.
    repeat split; try assumption; lia.
  - left. rewrite Hx. split; [assumption | reflexivity].
Qed.

(** On a well-formed table the first pass is defined, and the row it
    gives has [x_len] elements. *)
Lemma synthetic_row_cases (s : t D) (y : D) :
  well_formed s ->
  synthetic_row s y = Ok None \/
  exists row, synthetic_row s y = Ok (Some row) /\
              Z.of_nat (length row) = x_len s.
Proof.
  intros Hwf. unfold synthetic_row.
  destruct (find_y_search s y Hwf)
    as [(lo & Y0 & Y1 & row & Hy & _ & _ & _ & _ & _ & Hrow & Hlen) | [_ Hy]];
    rewrite Hy; cbn [bind].
  - right. exists row. rewrite Hrow. split; [reflexivity | assumption].
  - now left.
Qed.

End TwoPasses.

(** ** Further properties of [find] *)

Section FindSafety.
Context {D : Type} {N : Number D}.

(** X4: on a well-formed table [find] returns a value for every input,
    NaN and infinities included: no read of the run is outside its
    vector and nothing is thrown.  The same holds for [find] of the
    class [InterpolateLUT]. *)
Theorem find_defined (tb : list (list D)) (xr yr : list D) (xl yl : Z)
    (x_input y_input : D) :
  InterpolableLUT.well_formed (InterpolableLUT.make tb xr yr xl yl) ->
  exists r,
    InterpolableLUT.find (InterpolableLUT.make tb xr yr xl yl) x_input y_input
    = Ok r /\
    InterpolateLUT.find (InterpolateLUT.make tb xr yr xl yl) x_input y_input
    = Ok r.
Proof.
  intros Hwf.
  destruct (find_total (InterpolableLUT.make tb xr yr xl yl) x_input y_input Hwf)
    as [r Hr].
  exists r. split; [assumption | ]. now rewrite <- find_same.
Qed.

End FindSafety.

Section SearchRange.

Import InterpolableLUT.
Local Open Scope Q_scope.

(** X8: over a list sorted ascending, the search succeeds exactly for the
    values [v] with [list[0] <= v < list[last]]: it then returns the one
    bracket of [v], and otherwise returns false. *)
Theorem find_nearest_indexes_in_range (l : list Q) (v : Q) (l0 u0 : Z) :
  ascending l = true ->
  (in_range l v = true ->
   exists lo, is_bracket l v lo = true /\
     (forall j, is_bracket l v j = true -> j = lo) /\
     find_nearest_indexes l (Z.of_nat (length l)) v l0 u0
     = Ok (true, lo, (lo + 1)%Z)) /\
  (in_range l v = false ->
   find_nearest_indexes l (Z.of_nat (length l)) v l0 u0 = Ok (false, l0, u0)).
Proof.
  intros Hs. split; intros Hin.
  - destruct (bracket_exists l v Hin) as (lo & Hlo & Hb).
    exists lo. split; [assumption | ]. split.
    + intros j Hj. now apply (bracket_unique l v j lo).
    + apply find_nearest_indexes_at; try assumption; lia.
  - apply find_nearest_indexes_none; [lia | ].
    intros lo. destruct (is_bracket l v lo) eqn:Hb; [ | reflexivity].
    apply (bracket_in_range l v lo Hs) in Hb. congruence.
Qed.

End SearchRange.

(** ** NaN in binary64 *)

(** X9: in binary64, on a well-formed table, [find] returns [x_input]
    unchanged as soon as [x_input] or [y_input] is a NaN: a NaN
    [y_input] is passed over without a trace in the result, and a NaN
    [x_input] comes back as it is. *)
Theorem find_nan (s : InterpolableLUT.t float) (x_input y_input : float) :
  InterpolableLUT.well_formed s ->
  is_nan x_input = true \/ is_nan y_input = true ->
  InterpolableLUT.find s x_input y_input = Ok x_input.
Proof.
  intros Hwf [Hx | Hy].
  - rewrite find_passes.
    destruct (synthetic_row_cases s y_input Hwf) as [-> | (row & -> & Hlen)];
      cbn [bind]; [reflexivity | ].
    destruct (find_in_row_cases s row x_input Hwf Hlen)
      as [[_ ->] | (lo & a & b & c & d & _ & Hb & _)]; [reflexivity | ].
    rewrite nan_no_bracket in Hb by assumption. discriminate.
  - apply find_y_none with 0 0.
    apply find_nearest_indexes_none;
      [rewrite (InterpolableLUT.wf_y_ref s Hwf); lia | ].
    intros lo. now apply nan_no_bracket.
Qed.

(** ** The bounds check of [operator[]] *)

Section RowAccess.
Context {D : Type} {N : Number D}.

(** X10: [operator[]] checks the index against [y_len], not against the
    number of rows held: it is defined for every index (it returns a row
    or throws) exactly when [0 <= y_len <= table.size()].  A [y_len]
    above the number of rows lets an index in between through, and a
    negative [y_len] converts to a huge [size_t] and lets every index
    through. *)
Theorem operator_subscript_defined_iff
    (tb : list (list D)) (xr yr : list D) (xl yl : Z) :
  - 2 ^ 31 <= yl < 2 ^ 31 -> Z.of_nat (length tb) < 2 ^ 63 ->
  (forall row, 0 <= row < 2 ^ 64 ->
     InterpolableLUT.operator_subscript
       (InterpolableLUT.make tb xr yr xl yl) row <> Undefined)
  <-> 0 <= yl <= Z.of_nat (length tb).
Proof.
  intros Hint Hsize. unfold InterpolableLUT.operator_subscript, to_size_t.
  cbn [InterpolableLUT.y_len InterpolableLUT.table]. split.
  - intros Hdef.
    destruct (Z.lt_ge_cases yl 0) as [Hneg | Hpos].
    + exfalso. apply (Hdef (Z.of_nat (length tb))); [lia | ].
      assert (Hmod : yl mod 2 ^ 64 = yl + 2 ^ 64).
      { symmetry. apply (Z.mod_unique _ _ (-1)); lia. }
      rewrite Hmod.
      destruct (Z.leb_spec (yl + 2 ^ 64) (Z.of_nat (length tb))); [lia | ].
      unfold vec_at. destruct (Z.ltb_spec (Z.of_nat (length tb)) 0); [lia | ].
      rewrite Nat2Z.id.
      now rewrite (proj2 (nth_error_None tb (length tb)) (Nat.le_refl _)).
    + split; [assumption | ].
      destruct (Z.le_gt_cases yl (Z.of_nat (length tb))) as [ | Hgt];
        [assumption | ].
      exfalso. apply (Hdef (Z.of_nat (length tb))); [lia | ].
      rewrite Z.mod_small by lia.
      destruct (Z.leb_spec yl (Z.of_nat (length tb))); [lia | ].
      unfold vec_at. destruct (Z.ltb_spec (Z.of_nat (length tb)) 0); [lia | ].
      rewrite Nat2Z.id.
      now rewrite (proj2 (nth_error_None tb (length tb)) (Nat.le_refl _)).
  - intros Hyl row Hrow. rewrite Z.mod_small by lia.
    destruct (Z.leb_spec yl row); [discriminate | ].
    destruct (vec_at_defined tb row) as [r ->]; [lia | discriminate].
Qed.

End RowAccess.

(** ** The [int] overload of [linear_interpolate] *)

(** X11: for [int] arguments with [x0 <= x <= x1], [x0 < x1] and
    [y0 <= y1] whose differences and product fit an [int], the [int]
    overload is defined, returns a value between [y0] and [y1], and is
    exact at both endpoints; it truncates in between.  With [x1 = x0] it
    divides by zero, which is undefined. *)
Theorem linear_interpolate_int_between (x0 y0 x1 y1 x : Z) :
  - 2 ^ 31 <= y0 -> y0 <= y1 -> y1 < 2 ^ 31 ->
  x0 <= x <= x1 -> x0 < x1 ->
  (y1 - y0) * (x1 - x0) < 2 ^ 31 -> x1 - x0 < 2 ^ 31 ->
  (exists r, InterpolateLUT.linear_interpolate_int x0 y0 x1 y1 x = Ok r /\
             r = y0 + (y1 - y0) * (x - x0) / (x1 - x0) /\
             y0 <= r <= y1 /\ (x = x0 -> r = y0) /\ (x = x1 -> r = y1)) /\
  InterpolateLUT.linear_interpolate_int x0 y0 x0 y1 x = Undefined.
Proof.
  intros Hy0 Hy Hy1 Hx Hx01 Hprod Hdx.
  assert (Hok : forall z, - 2 ^ 31 <= z < 2 ^ 31 -> int_ok z = Ok z).
  { intros z Hz. unfold int_ok.
    destruct (Z.leb_spec (- 2 ^ 31) z); [ | lia].
    destruct (Z.ltb_spec z (2 ^ 31)); [reflexivity | lia]. }
  assert (Hp : 0 <= (y1 - y0) * (x - x0) <= (y1 - y0) * (x1 - x0)) by nia.
  assert (Hq : 0 <= (y1 - y0) * (x - x0) / (x1 - x0) <= y1 - y0).
  { split.
    - apply Z.div_pos; lia.
    - apply Z.div_le_upper_bound; [lia | ]. nia. }
  assert (Hy10 : y1 - y0 < 2 ^ 31) by nia.
  split.
  - exists (y0 + (y1 - y0) * (x - x0) / (x1 - x0)).
    unfold InterpolateLUT.linear_interpolate_int.
    rewrite (Hok (y1 - y0)) by lia. cbn [bind].
    rewrite (Hok (x - x0)) by lia. cbn [bind].
    rewrite (Hok ((y1 - y0) * (x - x0))) by lia. cbn [bind].
    rewrite (Hok (x1 - x0)) by lia. cbn [bind].
    destruct (Z.eqb_spec (x1 - x0) 0); [lia | ].
    rewrite Z.quot_div_nonneg by lia.
    rewrite (Hok ((y1 - y0) * (x - x0) / (x1 - x0))) by lia. cbn [bind].
    rewrite Hok by lia.
    repeat split; try lia.
    + intros ->. rewrite Z.sub_diag, Z.mul_0_r, Z.div_0_l by lia. lia.
    + intros ->. rewrite Z.div_mul by lia. lia.
  - assert (Hcases : forall z, int_ok z = Ok z \/ int_ok z = Undefined).
    { intros z. unfold int_ok.
      destruct ((- 2 ^ 31 <=? z) && (z <? 2 ^ 31)); auto. }
    unfold InterpolateLUT.linear_interpolate_int.
    destruct (Hcases (y1 - y0)) as [-> | ->]; cbn [bind]; [ | reflexivity].
    destruct (Hcases (x - x0)) as [-> | ->]; cbn [bind]; [ | reflexivity].
    destruct (Hcases ((y1 - y0) * (x - x0))) as [-> | ->]; cbn [bind];
      [ | reflexivity].
    rewrite Z.sub_diag. reflexivity.
Qed.

(** ** Runs of the further properties *)

(** In the runs of the printing functions every number is written as the
    one character [#]; the tables are those of [example()] and smaller
    ones. *)

Lemma operator_insert_complete_witness :
  (Z.of_nat (length temp_points) <= NUM_TEMP_POINTS /\
   NUM_TEMP_POINTS <= Z.of_nat (length ph_values) /\
   NUM_TEMP_POINTS < 2 ^ 31) /\
  operator_insert (fun _ : float => ["#"%char]) [] lutPh =
  (render (fun _ : float => ["#"%char]) tab temp_points ph_values, Ok tt).
Proof.
  assert (H1 : Z.of_nat (length temp_points) <= NUM_TEMP_POINTS)
    by (now vm_compute).
  assert (H2 : NUM_TEMP_POINTS <= Z.of_nat (length ph_values)) by (now vm_compute).
  assert (H3 : NUM_TEMP_POINTS < 2 ^ 31) by reflexivity.
  split; [auto | ].
  exact (operator_insert_complete (fun _ : float => ["#"%char])
           ph_values ph_values_at_25 temp_points NUM_PH_POINTS NUM_TEMP_POINTS
           [] H1 H2 H3).
Defined.

Lemma operator_insert_throws_witness :
  (0 <= 1 /\ 1 <= Z.of_nat (length [[1; 2]]%float) /\ 1 < 2 ^ 31 /\
   vec_at [0; 5]%float 1 = Ok 5%float) /\
  operator_insert (fun _ : float => ["#"%char]) []
    (InterpolableLUT.make [[1; 2]]%float [10; 20]%float [0; 5]%float 2 1) =
  (["#"%char] ++ tab ++ ["#"%char] ++ tab ++ ["#"%char] ++ tab ++ newline
     ++ ["#"%char] ++ tab,
   Throw out_of_range).
Proof.
  assert (H1 : 0 <= 1) by lia.
  assert (H2 : 1 <= Z.of_nat (length [[1; 2]]%float)) by (now vm_compute).
  assert (H3 : 1 < 2 ^ 31) by reflexivity.
  split; [repeat split; assumption | ].
  exact (operator_insert_throws (fun _ : float => ["#"%char])
           [[1; 2]]%float [10; 20]%float [0; 5]%float 2 1 [] 5%float
           H1 H2 H3 eq_refl).
Defined.

Lemma verifyTables_complete_witness :
  (NUM_TEMP_POINTS <= Z.of_nat (length temp_points) /\
   NUM_TEMP_POINTS <= Z.of_nat (length ph_values) /\
   Forall (fun r => NUM_PH_POINTS <= Z.of_nat (length r)) ph_values) /\
  verifyTables (fun _ : float => ["#"%char])
    (InterpolateLUT.make ph_values ph_values_at_25 temp_points
       NUM_PH_POINTS NUM_TEMP_POINTS) [] =
  (render (fun _ : float => ["#"%char]) (colon ++ tab)
     (firstn (Z.to_nat NUM_TEMP_POINTS) temp_points)
     (map (firstn (Z.to_nat NUM_PH_POINTS)) ph_values),
   Ok tt).
Proof.
  assert (H1 : NUM_TEMP_POINTS <= Z.of_nat (length temp_points))
    by (now vm_compute).
  assert (H2 : NUM_TEMP_POINTS <= Z.of_nat (length ph_values)) by (now vm_compute).
  assert (H3 : Forall (fun r => NUM_PH_POINTS <= Z.of_nat (length r)) ph_values)
    by (repeat constructor; now vm_compute).
  split; [auto | ].
  exact (verifyTables_complete (fun _ : float => ["#"%char])
           ph_values ph_values_at_25 temp_points NUM_PH_POINTS NUM_TEMP_POINTS
           [] H1 H2 H3).
Defined.

Lemma find_defined_witness :
  InterpolableLUT.well_formed lutPh /\
  exists r,
    InterpolableLUT.find lutPh 7.01%float 37%float = Ok r /\
    InterpolateLUT.find
      (InterpolateLUT.make ph_values ph_values_at_25 temp_points
         NUM_PH_POINTS NUM_TEMP_POINTS) 7.01%float 37%float = Ok r.
Proof.
  split; [exact lutPh_well_formed | ].
  exact (find_defined ph_values ph_values_at_25 temp_points
           NUM_PH_POINTS NUM_TEMP_POINTS 7.01%float 37%float lutPh_well_formed).
Defined.

Lemma find_nearest_indexes_in_range_witness :
  ascending [0; 1; 2]%Q = true /\
  (in_range [0; 1; 2]%Q (3 # 2) = true ->
   exists lo, is_bracket [0; 1; 2]%Q (3 # 2) lo = true /\
     (forall j, is_bracket [0; 1; 2]%Q (3 # 2) j = true -> j = lo) /\
     InterpolableLUT.find_nearest_indexes [0; 1; 2]%Q
       (Z.of_nat (length [0; 1; 2]%Q)) (3 # 2) 0 0 = Ok (true, lo, lo + 1)) /\
  (in_range [0; 1; 2]%Q (3 # 2) = false ->
   InterpolableLUT.find_nearest_indexes [0; 1; 2]%Q
     (Z.of_nat (length [0; 1; 2]%Q)) (3 # 2) 0 0 = Ok (false, 0, 0)).
Proof.
  split; [reflexivity | ].
  exact (find_nearest_indexes_in_range [0; 1; 2]%Q (3 # 2) 0 0 eq_refl).
Defined.

Lemma find_nan_witness :
  (InterpolableLUT.well_formed lutPh /\ is_nan nan = true) /\
  InterpolableLUT.find lutPh 7.01%float nan = Ok 7.01%float /\
  InterpolableLUT.find lutPh nan 37%float = Ok nan.
Proof.
  split; [split; [exact lutPh_well_formed | reflexivity] | ]. split.
  - exact (find_nan lutPh 7.01%float nan lutPh_well_formed
             (or_intror eq_refl)).
  - exact (find_nan lutPh nan 37%float lutPh_well_formed (or_introl eq_refl)).
Defined.

Lemma operator_subscript_defined_iff_witness :
  (- 2 ^ 31 <= NUM_TEMP_POINTS < 2 ^ 31 /\
   Z.of_nat (length ph_values) < 2 ^ 63) /\
  ((forall row, 0 <= row < 2 ^ 64 ->
      InterpolableLUT.operator_subscript lutPh row <> Undefined)
   <-> 0 <= NUM_TEMP_POINTS <= Z.of_nat (length ph_values)).
Proof.
  assert (H1 : - 2 ^ 31 <= NUM_TEMP_POINTS < 2 ^ 31) by (now vm_compute).
  assert (H2 : Z.of_nat (length ph_values) < 2 ^ 63) by reflexivity.
  split; [auto | ].
  exact (operator_subscript_defined_iff ph_values ph_values_at_25 temp_points
           NUM_PH_POINTS NUM_TEMP_POINTS H1 H2).
Defined.

Lemma linear_interpolate_int_between_witness :
  (- 2 ^ 31 <= 0 /\ 0 <= 1 /\ 1 < 2 ^ 31 /\ 0 <= 1 <= 2 /\ 0 < 2 /\
   (1 - 0) * (2 - 0) < 2 ^ 31 /\ 2 - 0 < 2 ^ 31) /\
  InterpolateLUT.linear_interpolate_int 0 0 2 1 1 = Ok 0 /\
  InterpolateLUT.linear_interpolate_int 0 0 0 1 1 = Undefined.
Proof.
  split; [lia | ].
  destruct (linear_interpolate_int_between 0 0 2 1 1)
    as [(r & Hr & Hval & _) Hzero]; try lia.
  split; [ | exact Hzero]. rewrite Hr, Hval. reflexivity.
Defined.
